(** * Chunked run-length compression tool: a shallow embedding of
    [task2_simple.cpp] and the properties of its codec, chunk source,
    frame format and single-worker pipeline.

    Platform conventions of the embedding (x86-64, LP64):
    - [char] is one byte ([Byte.byte]); [static_cast<unsigned char>] reads it
      as a number in [0, 255] and [static_cast<char>] of a [size_t] keeps the
      value modulo 256;
    - [size_t] is a 64-bit unsigned integer: a value of [N] below [2^64], every
      addition reduced modulo [2^64]; its object representation is 8 bytes,
      least significant first;
    - a [std::vector<char>] is a [list byte] of at most [max_size] elements;
      [operator[]] outside the bounds is a fault ([OutOfBounds]);
    - a vector that grows by [push_back] or [insert] is not checked against
      [max_size] and gets the memory it grows into;
    - [std::vector<char> v(n)] with [n] read from a file throws
      [std::length_error] ([LengthError]) when [n > max_size]; otherwise it
      asks [operator new] for [n] bytes, which throws [std::bad_alloc]
      ([BadAlloc]) when [n] is above the user address space
      ([address_space]) and above the number of bytes left in the file
      (predicate [allocates]); neither exception is caught by the program;
    - an output file is fresh: an output stream starts empty, and the file is
      what the stream has been given when it is closed. *)

From Stdlib Require Import List NArith PeanoNat Bool Lia Wf_nat.
From Stdlib Require Import Strings.Byte.
From Stdlib Require Import Sorting.Permutation Sorting.Sorted.
Import ListNotations.

(** ** Faults and the error monad *)

Inductive fault : Type :=
| OutOfBounds   (* operator[] on an index >= size() *)
| LengthError   (* std::length_error: vector(n) with n > max_size() *)
| BadAlloc      (* std::bad_alloc: operator new cannot give the memory *)
| OutOfFuel.    (* the loop did not finish within the iteration budget *)

Inductive result (A : Type) : Type :=
| Ok (a : A)
| Fault (f : fault).

Arguments Ok {A} a.
Arguments Fault {A} f.

Definition bind {A B : Type} (c : result A) (k : A -> result B) : result B :=
  match c with
  | Ok a => k a
  | Fault f => Fault f
  end.

Notation "x <- c ;; k" := (bind c (fun x => k))
  (at level 61, c at next level, right associativity).

(** ** [size_t] and [std::vector<char>] *)

Module SizeT.

Definition modulus : N := 2 ^ 64.

(** Reduction modulo [2^64]. *)
Definition wrap (n : N) : N := (n mod modulus)%N.

(** [a + b] on [size_t]. *)
Definition add (a b : N) : N := wrap (a + b).

End SizeT.

Definition vec : Type := list byte.

Definition size (v : vec) : N := N.of_nat (length v).

(** [std::vector<char>::max_size()], PTRDIFF_MAX on LP64. *)
Definition max_size : N := (2 ^ 63 - 1)%N.

Definition vec_ok (v : vec) : Prop := (size v <= max_size)%N.

(** The addresses of a user process on x86-64 (4-level paging) are below
    [2^47]: no allocation is larger. *)
Definition address_space : N := (2 ^ 47)%N.

(** [operator new(n)] for a buffer that is filled from a stream with [left]
    bytes not yet extracted.  The memory of the machine is not part of the
    state: it is taken to hold what the file holds, so a buffer that the file
    can fill is obtained, and so is one within [address_space]; a buffer
    above both is not, and [operator new] throws [std::bad_alloc].  Between
    the memory of a machine and [address_space] the outcome depends on the
    machine: a property below that ends with an output although a payload
    is missing bounds the length by [2 * CHUNK_SIZE], the largest payload
    the program writes. *)
Definition allocates (left n : N) : bool :=
  (n <=? left)%N || (n <=? address_space)%N.

(** A vector all of whose indices, and one more, are below [2^64]: no index
    computed by the two codec loops wraps around.  Every valid vector is one,
    and so is the encoding of a valid vector, twice as long at most. *)
Definition addressable (v : vec) : Prop := (size v + 1 < SizeT.modulus)%N.

(** [v[i]] *)
Definition at_ (v : vec) (i : N) : result byte :=
  match nth_error v (N.to_nat i) with
  | Some b => Ok b
  | None => Fault OutOfBounds
  end.

(** [static_cast<char>(n)] for [n : size_t] *)
Definition char_of_size_t (n : N) : byte :=
  match Byte.of_N (n mod 256) with
  | Some b => b
  | None => x00
  end.

(** [static_cast<unsigned char>(c)] *)
Definition uchar (c : byte) : N := Byte.to_N c.

(** ** The RLE codec

    Each loop is a recursive function on an iteration budget.  [RLECompress]
    and [RLEDecompress] give their loops [S (length input)] iterations, more
    than they use on a valid vector (lemmas [RLECompress_spec] and
    [RLEDecompress_spec]), so [OutOfFuel] is never their result. *)

(** The inner [while] of [RLECompress] (lines 27-29): from [count], advance
    while the next byte exists, equals [current] and [count < 255]. *)
Fixpoint run_length (fuel : nat) (input : vec) (i : N) (current : byte)
    (count : N) : result N :=
  match fuel with
  | O => Fault OutOfFuel
  | S fuel' =>
      if (SizeT.add i count <? size input)%N then
        b <- at_ input (SizeT.add i count) ;;
        if Byte.eqb b current then
          if (count <? 255)%N
          then run_length fuel' input i current (SizeT.add count 1)
          else Ok count
        else Ok count
      else Ok count
  end.

(** The outer [while] of [RLECompress] (lines 24-33). *)
Fixpoint compress_loop (fuel : nat) (input : vec) (i : N) (output : vec)
    : result vec :=
  match fuel with
  | O => Fault OutOfFuel
  | S fuel' =>
      if (i <? size input)%N then
        current <- at_ input i ;;
        count <- run_length (S (length input)) input i current 1 ;;
        compress_loop fuel' input (SizeT.add i count)
          ((output ++ [current]) ++ [char_of_size_t count])
      else Ok output
  end.

Definition RLECompress (input : vec) : result vec :=
  compress_loop (S (length input)) input 0 [].

(** The [for] loop of [RLEDecompress] (lines 39-43). *)
Fixpoint decompress_loop (fuel : nat) (input : vec) (i : N) (output : vec)
    : result vec :=
  match fuel with
  | O => Fault OutOfFuel
  | S fuel' =>
      if (SizeT.add i 1 <? size input)%N then
        ch <- at_ input i ;;
        c <- at_ input (SizeT.add i 1) ;;
        let count := uchar c in
        decompress_loop fuel' input (SizeT.add i 2)
          (output ++ repeat ch (N.to_nat count))
      else Ok output
  end.

Definition RLEDecompress (input : vec) : result vec :=
  decompress_loop (S (length input)) input 0 [].

(** ** Functional characterisation of the codec

    The two loops walk the vector by index; the functions below say the same
    by recursion on the list and are proved equal to the loops further down. *)

Fixpoint encode_run (current : byte) (count : N) (rest : list byte)
    : list byte :=
  match rest with
  | [] => [current; char_of_size_t count]
  | b :: rest' =>
      if Byte.eqb b current && (count <? 255)%N
      then encode_run current (count + 1) rest'
      else current :: char_of_size_t count :: encode_run b 1 rest'
  end.

Definition rle_encode (l : list byte) : list byte :=
  match l with
  | [] => []
  | b :: rest => encode_run b 1 rest
  end.

Fixpoint rle_decode (l : list byte) : list byte :=
  match l with
  | v :: c :: rest => repeat v (N.to_nat (uchar c)) ++ rle_decode rest
  | _ => []
  end.

(** A sequence of [(value, count)] pairs whose counts are between 1 and 255. *)
Fixpoint well_formed_pairs (l : list byte) : bool :=
  match l with
  | [] => true
  | _ :: c :: rest =>
      (1 <=? uchar c)%N && (uchar c <=? 255)%N && well_formed_pairs rest
  | _ => false
  end.

(** The pairs of one run of [n] bytes [x], cut in slices of 255: [n / 255]
    pairs [(x, 255)], then [(x, n mod 255)] when that is not zero. *)
Definition run_pairs (x : byte) (n : N) : list byte :=
  concat (repeat [x; char_of_size_t 255] (N.to_nat (n / 255)))
  ++ (if (n mod 255 =? 0)%N then [] else [x; char_of_size_t (n mod 255)]).

(** ** Streams

    [std::ifstream] opened in binary mode: the bytes not yet extracted and the
    two state bits the program depends on. *)

Record istream : Type := mk_istream {
  rest : list byte;
  eofbit : bool;
  failbit : bool
}.

Definition open_in (file : list byte) : istream :=
  mk_istream file false false.

Definition good (s : istream) : bool := negb (eofbit s) && negb (failbit s).

(** [in.peek()]: [None] is [EOF].  A stream that is not good yields [EOF] and
    gets [failbit]; a good stream with nothing left yields [EOF] and gets
    [eofbit]. *)
Definition peek (s : istream) : option byte * istream :=
  if good s then
    match rest s with
    | [] => (None, mk_istream [] true (failbit s))
    | b :: _ => (Some b, s)
    end
  else (None, mk_istream (rest s) (eofbit s) true).

(** [in.read(p, n)]: the characters extracted (their number is [gcount()])
    and the stream afterwards.  A stream that is not good extracts nothing and
    gets [failbit]; fewer than [n] characters left sets [eofbit | failbit]. *)
Definition read (s : istream) (n : N) : list byte * istream :=
  if good s then
    let got := firstn (N.to_nat n) (rest s) in
    let short := (size got <? n)%N in
    (got, mk_istream (skipn (N.to_nat n) (rest s)) short short)
  else ([], mk_istream (rest s) (eofbit s) true).

(** The object at [p] after [in.read(p, n)] extracted [got]: the first bytes
    are replaced, the others keep their value. *)
Definition overwrite (buf got : list byte) : list byte :=
  got ++ skipn (length got) buf.

(** [out.write(p, n)] on a [std::ofstream]: the stream is the bytes given to
    it so far. *)
Definition write (out : list byte) (p : list byte) (n : N) : list byte :=
  out ++ firstn (N.to_nat n) p.

(** ** [size_t] in memory: 8 bytes, least significant first *)

Fixpoint le_bytes (k : nat) (n : N) : list byte :=
  match k with
  | O => []
  | S k' => char_of_size_t n :: le_bytes k' (n / 256)
  end.

Fixpoint le_value (bs : list byte) : N :=
  match bs with
  | [] => 0
  | b :: bs' => uchar b + 256 * le_value bs'
  end.

Definition sizeof_size_t : N := 8.

(** [reinterpret_cast<char*>(&n)] *)
Definition size_t_bytes (n : N) : list byte :=
  le_bytes (N.to_nat sizeof_size_t) n.

(** [size_t x = 0; in.read(reinterpret_cast<char*>(&x), sizeof(size_t))] *)
Definition read_size_t (s : istream) : N * istream :=
  let (got, s') := read s sizeof_size_t in
  (le_value (overwrite (size_t_bytes 0) got), s').

(** ** Chunks and the chunk source *)

Definition CHUNK_SIZE : N := 1024 * 1024.

Record Chunk : Type := mk_Chunk {
  index : N;
  data : vec
}.

(** One turn of the reading loop of [compressFile] (lines 80-91): [None] when
    the loop is left ([in.eof()], or [bytesRead == 0]); otherwise the chunk
    pushed, the stream and the next index.  [buffer] is resized to
    [bytesRead], so it holds exactly the bytes extracted. *)
Definition next_chunk (in_ : istream) (idx : N)
    : option (Chunk * istream * N) :=
  if eofbit in_ then None
  else
    let (buffer, in') := read in_ CHUNK_SIZE in
    let bytesRead := size buffer in
    if (bytesRead =? 0)%N then None
    else Some (mk_Chunk idx buffer, in', SizeT.add idx 1).

(** The chunks the reading loop pushes, in order. *)
Fixpoint chunk_loop (fuel : nat) (in_ : istream) (idx : N)
    : result (list Chunk) :=
  match fuel with
  | O => Fault OutOfFuel
  | S fuel' =>
      match next_chunk in_ idx with
      | None => Ok []
      | Some (c, in', idx') =>
          cs <- chunk_loop fuel' in' idx' ;;
          Ok (c :: cs)
      end
  end.

Definition chunkSource (file : list byte) : result (list Chunk) :=
  chunk_loop (S (length file)) (open_in file) 0.

(** The chunks still to come from a stream, the loop given the iterations
    it can need. *)
Definition remaining (in_ : istream) (idx : N) : list Chunk :=
  match chunk_loop (S (length (rest in_))) in_ idx with
  | Ok cs => cs
  | Fault _ => []
  end.

(** ** Frame records *)

(** What one turn of [compressWorker] gives to its output stream
    (lines 60-67). *)
Definition write_frame (out : list byte) (chunk : Chunk)
    : result (list byte) :=
  compressed <- RLECompress (data chunk) ;;
  let size_ := size compressed in
  let out1 := write out (size_t_bytes (index chunk)) sizeof_size_t in
  let out2 := write out1 (size_t_bytes size_) sizeof_size_t in
  Ok (write out2 compressed size_).

(** The frame record of a chunk, with the payload given by [rle_encode];
    [write_frame] appends exactly these bytes (lemma [write_frame_spec]). *)
Definition frame_bytes (c : Chunk) : list byte :=
  size_t_bytes (index c)
  ++ size_t_bytes (size (rle_encode (data c)))
  ++ rle_encode (data c).

Definition frames (cs : list Chunk) : list byte :=
  flat_map frame_bytes cs.

(** A chunk as the chunk source makes them: at most [CHUNK_SIZE] bytes. *)
Definition chunk_ok (c : Chunk) : Prop := (size (data c) <= CHUNK_SIZE)%N.

(** ** The compression pipeline

    [compressFile] with its worker threads, as a transition system.  Every
    transition is one critical section of [queueMutex], or lines 60-67 of one
    worker.  Each worker owns a [std::ofstream]; [w_out] is what it has been
    given. *)

Inductive main_pc : Type :=
| MReading     (* in the reading loop, lines 80-92 *)
| MFinishing   (* loop left, doneReading not yet set, lines 94-99 *)
| MJoining.    (* doneReading set, joining the workers, lines 100-102 *)

Inductive worker_pc : Type :=
| WWaiting             (* at cv.wait, lines 53-54 *)
| WHolding (c : Chunk) (* a chunk popped, lines 60-67 ahead *)
| WExited.             (* left the loop, stream closed *)

Record worker : Type := mk_worker {
  w_pc : worker_pc;
  w_out : list byte
}.

Record pipeline : Type := mk_pipeline {
  p_in : istream;
  p_index : N;
  p_main : main_pc;
  workQueue : list Chunk;
  doneReading : bool;
  workers : list worker
}.

Definition init (file : list byte) (threadCount : nat) : pipeline :=
  mk_pipeline (open_in file) 0 MReading [] false
    (repeat (mk_worker WWaiting []) threadCount).

(** A worker's move, with the queue and the flag it shares. *)
Inductive worker_step :
  list Chunk * bool * worker -> list Chunk * bool * worker -> Prop :=
| WPop c q done out :
    worker_step (c :: q, done, mk_worker WWaiting out)
                (q, done, mk_worker (WHolding c) out)
| WExit out :
    worker_step ([], true, mk_worker WWaiting out)
                ([], true, mk_worker WExited out)
| WWrite c q done out out' :
    write_frame out c = Ok out' ->
    worker_step (q, done, mk_worker (WHolding c) out)
                (q, done, mk_worker WWaiting out').

Inductive step : pipeline -> pipeline -> Prop :=
| SPush in_ idx q done ws c in' idx' :
    next_chunk in_ idx = Some (c, in', idx') ->
    step (mk_pipeline in_ idx MReading q done ws)
         (mk_pipeline in' idx' MReading (q ++ [c]) done ws)
| SEndOfInput in_ idx q done ws :
    next_chunk in_ idx = None ->
    step (mk_pipeline in_ idx MReading q done ws)
         (mk_pipeline in_ idx MFinishing q done ws)
| SDone in_ idx q done ws :
    step (mk_pipeline in_ idx MFinishing q done ws)
         (mk_pipeline in_ idx MJoining q true ws)
| SWorker in_ idx m q done ws1 w ws2 q' done' w' :
    worker_step (q, done, w) (q', done', w') ->
    step (mk_pipeline in_ idx m q done (ws1 ++ w :: ws2))
         (mk_pipeline in_ idx m q' done' (ws1 ++ w' :: ws2)).

Inductive steps : pipeline -> pipeline -> Prop :=
| steps_refl p : steps p p
| steps_snoc p q r : steps p q -> step q r -> steps p r.

(** [compressFile] has returned: the flag is set and every worker has left
    its loop. *)
Definition finished (p : pipeline) : Prop :=
  p_main p = MJoining /\ Forall (fun w => w_pc w = WExited) (workers p).

(** The chunk a worker has popped and not yet written. *)
Definition held (w : worker) : list Chunk :=
  match w_pc w with
  | WHolding c => [c]
  | _ => []
  end.

(** What holds in every state a run from [init file threadCount] reaches.
    [pushed] is the list of chunks pushed so far. *)
Definition invariant (file : list byte) (threadCount : nat) (p : pipeline)
    : Prop :=
  exists pushed,
    remaining (open_in file) 0
    = pushed ++ match p_main p with
                | MReading => remaining (p_in p) (p_index p)
                | _ => []
                end
    /\ p_index p = SizeT.wrap (N.of_nat (length pushed))
    /\ (doneReading p = true <-> p_main p = MJoining)
    /\ length (workers p) = threadCount
    /\ Forall chunk_ok (workQueue p)
    /\ Forall (fun w => Forall chunk_ok (held w)) (workers p)
    /\ Forall (fun w => w_pc w = WExited ->
                        workQueue p = [] /\ doneReading p = true)
         (workers p)
    /\ (forall w, workers p = [w] ->
          w_out w ++ frames (held w) ++ frames (workQueue p)
          = frames pushed).

(** A bound on the transitions a state can still make. *)
Definition worker_measure (w : worker) : nat :=
  match w_pc w with
  | WWaiting => 1
  | WHolding _ => 2
  | WExited => 0
  end.

Definition measure (p : pipeline) : nat :=
  match p_main p with
  | MReading => 3 * length (rest (p_in p)) + 3
  | MFinishing => 1
  | MJoining => 0
  end
  + 2 * length (workQueue p)
  + list_sum (map worker_measure (workers p)).

(** ** Decompression *)

(** The loop of [decompressFile] (lines 109-119); [out] is the output
    stream.  [std::vector<char> compressed(size)] (line 114) is where the
    loop can throw: [std::length_error] or [std::bad_alloc]. *)
Fixpoint decompress_file_loop (fuel : nat) (in_ : istream) (out : list byte)
    : result (list byte) :=
  match fuel with
  | O => Fault OutOfFuel
  | S fuel' =>
      let (c, in0) := peek in_ in
      match c with
      | None => Ok out
      | Some _ =>
          let (index_, in1) := read_size_t in0 in
          let (size_, in2) := read_size_t in1 in
          if (max_size <? size_)%N then Fault LengthError
          else if allocates (size (rest in2)) size_ then
            let (got, in3) := read in2 size_ in
            let compressed :=
              overwrite (repeat x00 (N.to_nat size_)) got in
            decompressed <- RLEDecompress compressed ;;
            decompress_file_loop fuel' in3
              (write out decompressed (size decompressed))
          else Fault BadAlloc
      end
  end.

Definition decompressFile (file : list byte) : result (list byte) :=
  decompress_file_loop (S (length file)) (open_in file) [].

(** ** Notions used by the further properties *)

(** Runs are maximal in a sequence of pairs: where two pairs that follow each
    other carry the same value, the first one has count 255. *)
Fixpoint adjacent_runs_maximal (l : list byte) : bool :=
  match l with
  | v :: c :: rest =>
      match rest with
      | v' :: _ => negb (Byte.eqb v v') || (uchar c =? 255)%N
      | [] => true
      end
      && adjacent_runs_maximal rest
  | _ => true
  end.

(** A frame record with an index and a payload of any content. *)
Definition record_bytes (r : N * list byte) : list byte :=
  size_t_bytes (fst r) ++ size_t_bytes (size (snd r)) ++ snd r.

(** Its two header fields are [size_t] values and its payload is a vector. *)
Definition record_ok (r : N * list byte) : Prop :=
  (fst r < SizeT.modulus)%N /\ vec_ok (snd r).

(** [compressFile] started on an output file that holds [existing]: the
    workers open their streams in append mode, so what a worker is given
    goes after [existing]. *)
Definition init_append (existing file : list byte) (threadCount : nat)
    : pipeline :=
  mk_pipeline (open_in file) 0 MReading [] false
    (repeat (mk_worker WWaiting existing) threadCount).

(** What the turns of one [compressWorker] on the chunks [cs], in that
    order, give to its output stream. *)
Fixpoint write_frames (out : list byte) (cs : list Chunk)
    : result (list byte) :=
  match cs with
  | [] => Ok out
  | c :: cs' => out' <- write_frame out c ;; write_frames out' cs'
  end.

(** The bytes all the workers have been given, counted together. *)
Definition bytes_written (p : pipeline) : nat :=
  list_sum (map (fun w => length (w_out w)) (workers p)).

(** A state seen on an output file that held [existing] before the run:
    every worker's stream with [existing] in front. *)
Definition prepend_worker (existing : list byte) (w : worker) : worker :=
  mk_worker (w_pc w) (existing ++ w_out w).

Definition prepend (existing : list byte) (p : pipeline) : pipeline :=
  mk_pipeline (p_in p) (p_index p) (p_main p) (workQueue p) (doneReading p)
    (map (prepend_worker existing) (workers p)).

(** [l] is [l'] with some elements left out, the others in their order. *)
Inductive subseq {A : Type} : list A -> list A -> Prop :=
| subseq_nil : subseq [] []
| subseq_skip x l l' : subseq l l' -> subseq l (x :: l')
| subseq_take x l l' : subseq l l' -> subseq (x :: l) (x :: l').

(** The order in which a worker takes chunks: what it has popped so far is
    a subsequence of what has been popped by all. *)
Definition taken_in_order (file : list byte) (p : pipeline) : Prop :=
  exists pushed popped taken,
    remaining (open_in file) 0
    = pushed ++ match p_main p with
                | MReading => remaining (p_in p) (p_index p)
                | _ => []
                end
    /\ pushed = popped ++ workQueue p
    /\ Forall2 (fun w t => w_out w ++ frames (held w) = frames t)
         (workers p) taken
    /\ Forall (fun t => subseq t popped) taken.

(** Where every chunk pushed is, with any number of workers: [popped] then
    the queue are the chunks pushed, in order; [taken] lists, worker by
    worker, the chunks the worker has popped, whose frames are its stream
    once the chunk it holds is written. *)
Definition accounting (file : list byte) (p : pipeline) : Prop :=
  exists pushed popped taken,
    remaining (open_in file) 0
    = pushed ++ match p_main p with
                | MReading => remaining (p_in p) (p_index p)
                | _ => []
                end
    /\ pushed = popped ++ workQueue p
    /\ Forall2 (fun w t => w_out w ++ frames (held w) = frames t)
         (workers p) taken
    /\ Permutation (concat taken) popped.

(** Scenarios A and B of the specification, run on the loops. *)
Example scenario_A :
  RLECompress ["A"; "A"; "A"; "A"; "A"]%byte = Ok ["A"; x05]%byte
  /\ RLEDecompress ["A"; x05]%byte = Ok ["A"; "A"; "A"; "A"; "A"]%byte.
Proof. split; reflexivity. Qed.

Example scenario_B :
  RLECompress ["A"; "B"]%byte = Ok ["A"; x01; "B"; x01]%byte
  /\ RLEDecompress ["A"; x01; "B"; x01]%byte = Ok ["A"; "B"]%byte.
Proof. split; reflexivity. Qed.

(** A count byte of 0 decodes to nothing, one of 255 to 255 copies. *)
Example decode_count_zero :
  RLEDecompress ["a"; x00; "c"; x02]%byte = Ok ["c"; "c"]%byte.
Proof. reflexivity. Qed.

(** A file smaller than a chunk is one chunk, with index 0. *)
Example one_small_chunk :
  chunkSource ["a"; "b"; "c"]%byte = Ok [mk_Chunk 0 ["a"; "b"; "c"]%byte].
Proof. vm_compute. reflexivity. Qed.

(** The frame of chunk 0 holding five ['A']: index 0, length 2, payload
    [('A', 5)]. *)
Example frame_of_five :
  write_frame [] (mk_Chunk 0 (repeat "A"%byte 5))
  = Ok [x00; x00; x00; x00; x00; x00; x00; x00;
        x02; x00; x00; x00; x00; x00; x00; x00; "A"; x05]%byte.
Proof. reflexivity. Qed.

(** That frame followed by nine stray bytes (a whole index field and one
    byte of a length field): the stray bytes add nothing to the output. *)
Example frame_and_stray_bytes :
  decompressFile
    [x00; x00; x00; x00; x00; x00; x00; x00;
     x02; x00; x00; x00; x00; x00; x00; x00; "A"; x05;
     x01; x00; x00; x00; x00; x00; x00; x00; x04]%byte
  = Ok (repeat "A"%byte 5).
Proof. reflexivity. Qed.

(** A length field above [max_size] makes the payload vector's constructor
    throw. *)
Example length_field_too_large :
  decompressFile
    [x00; x00; x00; x00; x00; x00; x00; x00;
     x00; x00; x00; x00; x00; x00; x00; x80; "A"; x05]%byte
  = Fault LengthError.
Proof. reflexivity. Qed.

(** A length field within [max_size] and far above what the file holds:
    the payload buffer is not obtained. *)
Example length_field_beyond_memory :
  decompressFile
    [x00; x00; x00; x00; x00; x00; x00; x00;
     xff; xff; xff; xff; xff; xff; xff; x7f; "A"; x05]%byte
  = Fault BadAlloc.
Proof. reflexivity. Qed.

(** * Proofs *)

(** ** Arithmetic of [size_t] and vector access *)

Lemma wrap_small (n : N) : (n < SizeT.modulus)%N -> SizeT.wrap n = n.
Proof. intro H. unfold SizeT.wrap. now apply N.mod_small. Qed.

Lemma add_small (a b : N) :
  (a + b < SizeT.modulus)%N -> SizeT.add a b = (a + b)%N.
Proof. intro H. unfold SizeT.add. now apply wrap_small. Qed.

Lemma modulus_value : SizeT.modulus = 18446744073709551616%N.
Proof. reflexivity. Qed.

Lemma max_size_value : max_size = 9223372036854775807%N.
Proof. reflexivity. Qed.

(** Goals on sizes and indices: expose the two constants, then [lia]. *)
Ltac size_lia :=
  unfold vec_ok, size in *;
  rewrite ?modulus_value, ?max_size_value in *;
  simpl length in *; lia.

Lemma vec_ok_addressable (v : vec) : vec_ok v -> addressable v.
Proof. unfold addressable. intro H. size_lia. Qed.

Lemma add_index (k : nat) (c : N) :
  (N.of_nat k + c < SizeT.modulus)%N ->
  SizeT.add (N.of_nat k) c = N.of_nat (k + N.to_nat c).
Proof. intro H. rewrite add_small by exact H. lia. Qed.

Lemma skipn_cons_nth {A : Type} (l : list A) (n : nat) (x : A) (r : list A) :
  skipn n l = x :: r ->
  nth_error l n = Some x /\ skipn (S n) l = r /\ n < length l.
Proof.
  revert l. induction n as [|n IH]; intros [|y l] H; simpl in *;
    try discriminate.
  - inversion H; subst. repeat split. lia.
  - destruct (IH _ H) as (H1 & H2 & H3). repeat split; auto. lia.
Qed.

Lemma skipn_nil_length {A : Type} (l : list A) (n : nat) :
  skipn n l = [] -> length l <= n.
Proof.
  intro H. pose proof (length_skipn n l) as E. rewrite H in E. simpl in E. lia.
Qed.

Lemma at_skipn (v : vec) (k : nat) (b : byte) (r : list byte) :
  skipn k v = b :: r -> at_ v (N.of_nat k) = Ok b.
Proof.
  intro H. apply skipn_cons_nth in H as (H & _). unfold at_.
  now rewrite Nnat.Nat2N.id, H.
Qed.

Lemma ltb_index (v : vec) (k : nat) :
  (N.of_nat k <? size v)%N = (k <? length v).
Proof.
  unfold size. destruct (Nat.ltb_spec k (length v)).
  - apply N.ltb_lt. lia.
  - apply N.ltb_ge. lia.
Qed.

(** ** The decoding loop is [rle_decode] *)

Section DecodeLoop.

Variable input : vec.
Hypothesis input_addressable : addressable input.

Lemma decompress_loop_spec (fuel : nat) :
  forall k output,
    k <= length input -> length input - k < fuel ->
    decompress_loop fuel input (N.of_nat k) output
    = Ok (output ++ rle_decode (skipn k input)).
Proof.
  pose proof input_addressable as Hv. unfold addressable in Hv.
  induction fuel as [|fuel IH]; intros k output Hk Hf; [lia|].
  cbn [decompress_loop].
  rewrite (add_index k 1), ltb_index by size_lia.
  change (N.to_nat 1) with 1.
  destruct (skipn k input) as [|v [|c r]] eqn:E.
  - apply skipn_nil_length in E.
    destruct (Nat.ltb_spec (k + 1) (length input)); [lia|].
    now rewrite app_nil_r.
  - pose proof (length_skipn k input) as L. rewrite E in L. simpl in L.
    destruct (Nat.ltb_spec (k + 1) (length input)); [lia|].
    now rewrite app_nil_r.
  - destruct (skipn_cons_nth _ _ _ _ E) as (_ & E1 & L).
    destruct (skipn_cons_nth _ _ _ _ E1) as (_ & E2 & L1).
    destruct (Nat.ltb_spec (k + 1) (length input)); [|lia].
    rewrite (at_skipn _ _ _ _ E).
    replace (k + 1) with (S k) by lia.
    rewrite (at_skipn _ _ _ _ E1). cbn [bind].
    rewrite (add_index k 2) by size_lia.
    change (N.to_nat 2) with 2.
    rewrite IH by lia.
    replace (k + 2) with (S (S k)) by lia. rewrite E2.
    cbn [rle_decode]. now rewrite app_assoc.
Qed.

Lemma RLEDecompress_spec : RLEDecompress input = Ok (rle_decode input).
Proof.
  unfold RLEDecompress. change 0%N with (N.of_nat 0).
  rewrite decompress_loop_spec by lia. reflexivity.
Qed.

End DecodeLoop.

(** ** The encoding loops are [rle_encode] *)

Section EncodeLoops.

Variable input : vec.
Hypothesis input_ok : vec_ok input.

Lemma run_length_spec (current : byte) (fuel : nat) :
  forall k count,
    (1 <= count <= 255)%N ->
    k + N.to_nat count <= length input ->
    length input - (k + N.to_nat count) < fuel ->
    exists count',
      run_length fuel input (N.of_nat k) current count = Ok count'
      /\ (count <= count' <= 255)%N
      /\ k + N.to_nat count' <= length input
      /\ encode_run current count (skipn (k + N.to_nat count) input)
         = current :: char_of_size_t count'
             :: rle_encode (skipn (k + N.to_nat count') input).
Proof.
  pose proof input_ok as Hv.
  induction fuel as [|fuel IH]; intros k count Hc Hk Hf; [lia|].
  cbn [run_length].
  rewrite (add_index k count), ltb_index by size_lia.
  destruct (skipn (k + N.to_nat count) input) as [|b r] eqn:E.
  - apply skipn_nil_length in E.
    destruct (Nat.ltb_spec (k + N.to_nat count) (length input)); [lia|].
    exists count. repeat split; auto; try lia.
    rewrite (skipn_all2 input) by lia. reflexivity.
  - destruct (skipn_cons_nth _ _ _ _ E) as (_ & E1 & L).
    destruct (Nat.ltb_spec (k + N.to_nat count) (length input)); [|lia].
    rewrite (at_skipn _ _ _ _ E). cbn [bind]. simpl encode_run.
    destruct (Byte.eqb b current) eqn:Eb; cbn [andb].
    + destruct (N.ltb_spec count 255).
      * rewrite add_small by size_lia.
        destruct (IH k (count + 1)%N) as (c' & R & B & K & Enc); try lia.
        exists c'. repeat split; auto; try lia.
        rewrite <- Enc. f_equal.
        replace (k + N.to_nat (count + 1)) with (S (k + N.to_nat count))
          by lia.
        now rewrite E1.
      * exists count. repeat split; auto; try lia.
        now rewrite E.
    + exists count. repeat split; auto; try lia.
      now rewrite E.
Qed.

Lemma compress_loop_spec (fuel : nat) :
  forall k output,
    k <= length input -> length input - k < fuel ->
    compress_loop fuel input (N.of_nat k) output
    = Ok (output ++ rle_encode (skipn k input)).
Proof.
  pose proof input_ok as Hv.
  induction fuel as [|fuel IH]; intros k output Hk Hf; [lia|].
  cbn [compress_loop]. rewrite ltb_index.
  destruct (skipn k input) as [|b r] eqn:E.
  - apply skipn_nil_length in E.
    destruct (Nat.ltb_spec k (length input)); [lia|].
    now rewrite app_nil_r.
  - destruct (skipn_cons_nth _ _ _ _ E) as (_ & E1 & L).
    destruct (Nat.ltb_spec k (length input)); [|lia].
    rewrite (at_skipn _ _ _ _ E). cbn [bind].
    destruct (run_length_spec b (S (length input)) k 1%N)
      as (c' & R & B & K & Enc); try (simpl; lia).
    rewrite R. cbn [bind].
    rewrite (add_index k c') by size_lia.
    rewrite IH by lia.
    f_equal. rewrite <- !app_assoc. f_equal. cbn [app].
    cbn [rle_encode]. rewrite <- E1.
    replace (S k) with (k + N.to_nat 1) by (simpl; lia).
    exact (eq_sym Enc).
Qed.

Lemma RLECompress_spec : RLECompress input = Ok (rle_encode input).
Proof.
  unfold RLECompress. change 0%N with (N.of_nat 0).
  rewrite compress_loop_spec by lia. reflexivity.
Qed.

End EncodeLoops.

(** ** Properties of the functional codec *)

Lemma uchar_char (n : N) : (n <= 255)%N -> uchar (char_of_size_t n) = n.
Proof.
  intro H. unfold uchar, char_of_size_t.
  rewrite N.mod_small by lia.
  destruct (Byte.of_N n) as [b|] eqn:E.
  - now apply Byte.to_of_N.
  - apply Byte.of_N_None_iff in E. lia.
Qed.

Lemma repeat_snoc {A : Type} (x : A) (n : nat) (l : list A) :
  repeat x (S n) ++ l = repeat x n ++ x :: l.
Proof.
  induction n as [|n IH]; simpl in *; [reflexivity|]. now rewrite IH.
Qed.

Lemma decode_encode_run (rest : list byte) :
  forall current count,
    (1 <= count <= 255)%N ->
    rle_decode (encode_run current count rest)
    = repeat current (N.to_nat count) ++ rest.
Proof.
  induction rest as [|b rest IH]; intros current count Hc.
  - simpl. now rewrite uchar_char by lia.
  - cbn [encode_run].
    destruct (Byte.eqb b current) eqn:Eb; cbn [andb].
    + apply Byte.byte_dec_bl in Eb. subst b.
      destruct (N.ltb_spec count 255).
      * rewrite IH by lia.
        replace (N.to_nat (count + 1)) with (S (N.to_nat count)) by lia.
        apply repeat_snoc.
      * cbn [rle_decode]. rewrite uchar_char by lia.
        rewrite IH by lia. reflexivity.
    + cbn [rle_decode]. rewrite uchar_char by lia.
      rewrite IH by lia. reflexivity.
Qed.

Lemma decode_encode (l : list byte) : rle_decode (rle_encode l) = l.
Proof.
  destruct l as [|b rest]; [reflexivity|].
  unfold rle_encode. now rewrite decode_encode_run by lia.
Qed.

Lemma encode_run_shape (rest : list byte) :
  forall current count,
    (1 <= count <= 255)%N ->
    well_formed_pairs (encode_run current count rest) = true
    /\ Nat.even (length (encode_run current count rest)) = true
    /\ length (encode_run current count rest) <= 2 * S (length rest).
Proof.
  induction rest as [|b rest IH]; intros current count Hc.
  - simpl. rewrite uchar_char by lia.
    repeat split; try lia.
    destruct (N.leb_spec 1 count), (N.leb_spec count 255); simpl; lia.
  - cbn [encode_run].
    destruct (Byte.eqb b current && (count <? 255)%N) eqn:Eb.
    + apply andb_true_iff in Eb as (_ & Eb). apply N.ltb_lt in Eb.
      destruct (IH current (count + 1)%N) as (W & Ev & L); [lia|].
      repeat split; auto. simpl length. lia.
    + destruct (IH b 1%N) as (W & Ev & L); [lia|].
      cbn [well_formed_pairs length]. rewrite uchar_char by lia.
      repeat split.
      * rewrite W.
        destruct (N.leb_spec 1 count), (N.leb_spec count 255); simpl; lia.
      * exact Ev.
      * lia.
Qed.

Lemma encode_shape (l : list byte) :
  well_formed_pairs (rle_encode l) = true
  /\ Nat.even (length (rle_encode l)) = true
  /\ length (rle_encode l) <= 2 * length l.
Proof.
  destruct l as [|b rest]; [simpl; repeat split; lia|].
  unfold rle_encode. apply encode_run_shape. lia.
Qed.

Lemma encode_addressable (l : list byte) :
  vec_ok l -> addressable (rle_encode l).
Proof.
  intro H. destruct (encode_shape l) as (_ & _ & L).
  unfold addressable. size_lia.
Qed.

(** ** Runs and their slices *)

Lemma encode_run_same (x : byte) (m : nat) :
  forall count l,
    (count + N.of_nat m <= 255)%N ->
    encode_run x count (repeat x m ++ l)
    = encode_run x (count + N.of_nat m) l.
Proof.
  induction m as [|m IH]; intros count l H.
  - simpl. now rewrite N.add_0_r.
  - cbn [repeat app encode_run].
    rewrite (Byte.byte_dec_lb eq_refl).
    destruct (N.ltb_spec count 255); [|lia]. cbn [andb].
    rewrite IH by lia. f_equal. lia.
Qed.

Lemma encode_run_boundary (x : byte) (count : N) (l : list byte) :
  hd_error l <> Some x ->
  encode_run x count l = x :: char_of_size_t count :: rle_encode l.
Proof.
  destruct l as [|b l]; intro H; [reflexivity|].
  cbn [encode_run rle_encode].
  destruct (Byte.eqb b x) eqn:E; [|reflexivity].
  apply Byte.byte_dec_bl in E. subst b. now contradiction H.
Qed.

Lemma encode_run_full (x : byte) (l : list byte) :
  encode_run x 255 (x :: l) = x :: char_of_size_t 255 :: encode_run x 1 l.
Proof.
  cbn [encode_run]. rewrite (Byte.byte_dec_lb eq_refl). reflexivity.
Qed.

Lemma run_pairs_small (x : byte) (n : N) :
  (1 <= n <= 255)%N -> run_pairs x n = [x; char_of_size_t n].
Proof.
  intro H. unfold run_pairs.
  destruct (N.eq_dec n 255) as [->|Hn]; [reflexivity|].
  rewrite N.div_small, N.mod_small by lia.
  destruct (N.eqb_spec n 0); [lia|]. reflexivity.
Qed.

Lemma run_pairs_step (x : byte) (n : N) :
  (255 < n)%N ->
  run_pairs x n = x :: char_of_size_t 255 :: run_pairs x (n - 255).
Proof.
  intro H.
  assert (Ed : (n / 255 = (n - 255) / 255 + 1)%N).
  { replace n with (n - 255 + 1 * 255)%N at 1 by lia.
    now rewrite N.div_add by lia. }
  assert (Em : (n mod 255 = (n - 255) mod 255)%N).
  { replace n with (n - 255 + 1 * 255)%N at 1 by lia.
    now rewrite N.Div0.mod_add. }
  unfold run_pairs. rewrite Ed, Em.
  replace (N.to_nat ((n - 255) / 255 + 1)) with (S (N.to_nat ((n - 255) / 255)))
    by lia.
  reflexivity.
Qed.

Lemma encode_repeat (x : byte) (rest : list byte) :
  hd_error rest <> Some x ->
  forall n, 1 <= n ->
    rle_encode (repeat x n ++ rest)
    = run_pairs x (N.of_nat n) ++ rle_encode rest.
Proof.
  intros Hb n. induction n as [n IH] using (well_founded_induction lt_wf).
  intro Hn. destruct n as [|m]; [lia|].
  cbn [repeat app rle_encode].
  destruct (Nat.le_gt_cases (S m) 255) as [Hs|Hl].
  - rewrite encode_run_same by lia.
    rewrite encode_run_boundary by assumption.
    rewrite run_pairs_small by lia.
    cbn [app]. do 2 f_equal. f_equal. lia.
  - replace m with (254 + S (m - 255)) by lia.
    rewrite repeat_app, <- app_assoc.
    rewrite encode_run_same by lia.
    change (1 + N.of_nat 254)%N with 255%N.
    cbn [repeat app]. rewrite encode_run_full.
    rewrite run_pairs_step by lia. cbn [app]. do 2 f_equal.
    destruct (m - 255) as [|j] eqn:Ej.
    + cbn [repeat]. cbn [app].
      rewrite encode_run_boundary by assumption.
      replace (N.of_nat (S (254 + 1)) - 255)%N with 1%N by lia.
      reflexivity.
    + specialize (IH (S (S j))). cbn [repeat app rle_encode] in IH.
      cbn [repeat app]. rewrite IH by lia.
      f_equal. f_equal. lia.
Qed.

Lemma last_cons_default {A : Type} (l : list A) (a d : A) :
  last (a :: l) d = last l a.
Proof.
  revert a d. induction l as [|b l IH]; intros a d; [reflexivity|].
  change (last (a :: b :: l) d) with (last (b :: l) d).
  now rewrite !IH.
Qed.

Lemma encode_run_app (l : list byte) (pre : list byte) :
  forall current count,
    hd_error l <> Some (last pre current) ->
    encode_run current count (pre ++ l)
    = encode_run current count pre ++ rle_encode l.
Proof.
  induction pre as [|b pre IH]; intros current count H.
  - simpl in H. cbn [app]. now apply encode_run_boundary.
  - rewrite last_cons_default in H.
    cbn [app encode_run].
    destruct (Byte.eqb b current && (count <? 255)%N) eqn:Eb.
    + apply andb_true_iff in Eb as (Eb & _).
      apply Byte.byte_dec_bl in Eb. subst b. now apply IH.
    + cbn [app]. do 2 f_equal. now apply IH.
Qed.

Lemma encode_app (pre l : list byte) (x : byte) :
  (pre <> [] -> hd_error l <> Some (last pre x)) ->
  rle_encode (pre ++ l) = rle_encode pre ++ rle_encode l.
Proof.
  destruct pre as [|b pre]; intro H; [reflexivity|].
  cbn [app rle_encode]. apply encode_run_app.
  rewrite <- (last_cons_default pre b x). apply H. discriminate.
Qed.

Lemma run_pairs_well_formed (x : byte) (n : N) :
  well_formed_pairs (run_pairs x n) = true.
Proof.
  unfold run_pairs.
  induction (N.to_nat (n / 255)) as [|q IH].
  - cbn [repeat concat app].
    destruct (N.eqb_spec (n mod 255) 0) as [|Hm]; [reflexivity|].
    assert (n mod 255 < 255)%N by (apply N.mod_upper_bound; lia).
    set (m := (n mod 255)%N) in *. clearbody m.
    cbn [well_formed_pairs]. rewrite uchar_char by lia.
    destruct (N.leb_spec 1 m), (N.leb_spec m 255); try lia; reflexivity.
  - cbn [repeat concat app well_formed_pairs]. now rewrite IH.
Qed.

Lemma rle_decode_app_even (l r : list byte) :
  Nat.even (length l) = true ->
  rle_decode (l ++ r) = rle_decode l ++ rle_decode r.
Proof.
  remember (length l) as n eqn:En. revert l En.
  induction n as [n IH] using (well_founded_induction lt_wf).
  intros l En Ev. destruct l as [|v [|c l]].
  - reflexivity.
  - subst n. discriminate Ev.
  - cbn [app rle_decode]. rewrite <- app_assoc. f_equal.
    apply (IH (length l)); subst n; simpl in *; auto.
Qed.

Lemma rle_decode_single (b : byte) : rle_decode [b] = [].
Proof. reflexivity. Qed.

Lemma odd_removelast_even (l : list byte) :
  Nat.odd (length l) = true ->
  l = removelast l ++ [last l x00]
  /\ Nat.even (length (removelast l)) = true.
Proof.
  intro H. assert (Hne : l <> []) by (intro E; subst l; discriminate H).
  pose proof (app_removelast_last x00 Hne) as E. split; [exact E|].
  rewrite E, length_app, Nat.add_comm in H. cbn [length Nat.add] in H.
  now rewrite Nat.odd_succ in H.
Qed.

(** ** [size_t] in memory *)

Lemma length_le_bytes (k : nat) : forall n, length (le_bytes k n) = k.
Proof. induction k as [|k IH]; intro n; simpl; [|rewrite IH]; reflexivity. Qed.

Lemma uchar_char_mod (n : N) : uchar (char_of_size_t n) = (n mod 256)%N.
Proof.
  unfold char_of_size_t.
  assert (H : (n mod 256 < 256)%N) by (apply N.mod_upper_bound; lia).
  set (m := (n mod 256)%N) in *. clearbody m.
  unfold uchar. destruct (Byte.of_N m) as [b|] eqn:E.
  - now apply Byte.to_of_N.
  - apply Byte.of_N_None_iff in E. lia.
Qed.

Lemma le_value_le_bytes (k : nat) :
  forall n, le_value (le_bytes k n) = (n mod 256 ^ N.of_nat k)%N.
Proof.
  induction k as [|k IH]; intro n.
  - simpl. now rewrite N.mod_1_r.
  - cbn [le_bytes le_value]. rewrite IH, uchar_char_mod.
    rewrite Nnat.Nat2N.inj_succ, N.pow_succ_r'.
    now rewrite N.Div0.mod_mul_r.
Qed.

Lemma length_size_t_bytes (n : N) : length (size_t_bytes n) = 8.
Proof. apply length_le_bytes. Qed.

Lemma le_value_size_t_bytes (n : N) :
  (n < SizeT.modulus)%N -> le_value (size_t_bytes n) = n.
Proof.
  intro H. unfold size_t_bytes. rewrite le_value_le_bytes.
  apply N.mod_small. exact H.
Qed.

Lemma le_value_zeros (bs : list byte) (k : nat) :
  le_value (bs ++ repeat x00 k) = le_value bs.
Proof.
  induction bs as [|b bs IH].
  - induction k as [|k IHk]; [reflexivity|].
    cbn [repeat app le_value] in *. rewrite IHk. reflexivity.
  - cbn [app le_value]. now rewrite IH.
Qed.

Lemma le_value_bound (bs : list byte) :
  (le_value bs < 256 ^ N.of_nat (length bs))%N.
Proof.
  induction bs as [|b bs IH].
  - simpl. lia.
  - cbn [length le_value].
    rewrite Nnat.Nat2N.inj_succ, N.pow_succ_r'.
    pose proof (Byte.to_N_bounded b). unfold uchar. lia.
Qed.

(** ** Streams that have failed, headers that are cut short *)

Lemma peek_not_good (s : istream) :
  good s = false -> fst (peek s) = None /\ good (snd (peek s)) = false.
Proof.
  intro H. unfold peek. rewrite H. split; [reflexivity|].
  unfold good. cbn [failbit eofbit snd]. apply andb_false_r.
Qed.

Lemma read_not_good (s : istream) (n : N) :
  good s = false -> fst (read s n) = [] /\ good (snd (read s n)) = false.
Proof.
  intro H. unfold read. rewrite H. split; [reflexivity|].
  unfold good. cbn [failbit eofbit snd]. apply andb_false_r.
Qed.

Lemma read_good (s : istream) (n : N) :
  good s = true ->
  read s n
  = (firstn (N.to_nat n) (rest s),
     mk_istream (skipn (N.to_nat n) (rest s))
       (size (firstn (N.to_nat n) (rest s)) <? n)%N
       (size (firstn (N.to_nat n) (rest s)) <? n)%N).
Proof. intro H. unfold read. now rewrite H. Qed.

Lemma skipn_repeat {A : Type} (x : A) (n k : nat) :
  skipn k (repeat x n) = repeat x (n - k).
Proof.
  revert n. induction k as [|k IH]; intros [|n]; simpl; auto.
Qed.

Lemma rle_decode_zeros (n : nat) : rle_decode (repeat x00 n) = [].
Proof.
  induction n as [n IH] using (well_founded_induction lt_wf).
  destruct n as [|[|n]]; try reflexivity.
  cbn [repeat rle_decode]. change (uchar x00) with 0%N.
  cbn [N.to_nat repeat app]. apply IH. lia.
Qed.

(** A [size_t] read that cannot be completed leaves the stream failed and a
    value made of the bytes extracted, below [2^56]. *)
Lemma read_size_t_short (s : istream) :
  good s = false \/ length (rest s) < 8 ->
  good (snd (read_size_t s)) = false
  /\ (fst (read_size_t s) < 2 ^ 56)%N.
Proof.
  intros H. unfold read_size_t.
  destruct (good s) eqn:G.
  - destruct H as [H|H]; [discriminate|].
    rewrite (read_good s _ G). cbn [fst snd].
    change (N.to_nat sizeof_size_t) with 8.
    rewrite firstn_all2 by lia.
    assert (Hs : (size (rest s) <? sizeof_size_t)%N = true).
    { apply N.ltb_lt. unfold size, sizeof_size_t. lia. }
    rewrite Hs. split; [reflexivity|].
    unfold overwrite. change (size_t_bytes 0) with (repeat x00 8).
    rewrite skipn_repeat, le_value_zeros.
    eapply N.lt_le_trans; [apply le_value_bound|].
    change (2 ^ 56)%N with (256 ^ 7)%N.
    apply N.pow_le_mono_r; lia.
  - destruct (read s sizeof_size_t) as [got s'] eqn:R.
    pose proof (read_not_good s sizeof_size_t G) as (Hg & Hs).
    rewrite R in Hg, Hs. cbn [fst snd] in *. subst got.
    split; [exact Hs|]. reflexivity.
Qed.

(** With fewer than 16 bytes left, the second [size_t] read of a turn cannot
    be completed. *)
Lemma read_size_t_twice_short (s : istream) :
  length (rest s) < 16 ->
  good (snd (read_size_t (snd (read_size_t s)))) = false
  /\ (fst (read_size_t (snd (read_size_t s))) < 2 ^ 56)%N.
Proof.
  intro H. apply read_size_t_short.
  unfold read_size_t.
  destruct (good s) eqn:G.
  - rewrite (read_good s _ G). cbn [snd rest].
    right. rewrite length_skipn.
    change (N.to_nat sizeof_size_t) with 8. lia.
  - left. destruct (read s sizeof_size_t) as [got s'] eqn:R.
    pose proof (read_not_good s sizeof_size_t G) as (_ & Hs).
    now rewrite R in Hs.
Qed.

Lemma decompress_file_loop_not_good (fuel : nat) (s : istream)
    (out : list byte) :
  good s = false -> decompress_file_loop (S fuel) s out = Ok out.
Proof.
  intro G. cbn [decompress_file_loop].
  destruct (peek s) as [c s'] eqn:P.
  pose proof (peek_not_good s G) as (Hc & _). rewrite P in Hc.
  cbn [fst] in Hc. now subst c.
Qed.

Lemma RLEDecompress_zeros (n : N) :
  (n <= max_size)%N -> RLEDecompress (repeat x00 (N.to_nat n)) = Ok [].
Proof.
  intro H. rewrite RLEDecompress_spec.
  - now rewrite rle_decode_zeros.
  - apply vec_ok_addressable. unfold vec_ok, size.
    rewrite repeat_length. lia.
Qed.

Lemma write_nothing (out : list byte) : write out [] (size []) = out.
Proof. unfold write. cbn. apply app_nil_r. Qed.

Lemma allocates_present (left n : N) :
  (n <= left)%N -> allocates left n = true.
Proof.
  intro H. unfold allocates. apply orb_true_iff. left. now apply N.leb_le.
Qed.

Lemma allocates_small (left n : N) :
  (n <= address_space)%N -> allocates left n = true.
Proof.
  intro H. unfold allocates. apply orb_true_iff. right. now apply N.leb_le.
Qed.

Lemma address_space_value : address_space = 140737488355328%N.
Proof. reflexivity. Qed.

(** Nothing left: a [size_t] read keeps the 0 the variable was given. *)
Lemma read_size_t_nothing (s : istream) :
  rest s = [] -> fst (read_size_t s) = 0%N.
Proof.
  intro H. unfold read_size_t, read. rewrite H.
  destruct (good s); reflexivity.
Qed.

(** With fewer than 16 bytes left, the second [size_t] read of a turn gives
    the bytes after the eighth, taken as the low bytes of the value. *)
Lemma read_size_t_twice_value (s : istream) :
  good s = true -> length (rest s) < 16 ->
  fst (read_size_t (snd (read_size_t s))) = le_value (skipn 8 (rest s)).
Proof.
  intros G H. unfold read_size_t at 2. rewrite (read_good s _ G).
  cbn [snd]. change (N.to_nat sizeof_size_t) with 8.
  destruct (N.ltb_spec (size (firstn 8 (rest s))) sizeof_size_t) as [L|L].
  - assert (E : skipn 8 (rest s) = []).
    { apply skipn_all2. unfold size, sizeof_size_t in L.
      rewrite length_firstn in L. lia. }
    rewrite E. now apply read_size_t_nothing.
  - unfold read_size_t. rewrite read_good by reflexivity.
    cbn [fst rest]. change (N.to_nat sizeof_size_t) with 8.
    rewrite firstn_all2 by (rewrite length_skipn; lia).
    unfold overwrite. change (size_t_bytes 0) with (repeat x00 8).
    rewrite skipn_repeat. apply le_value_zeros.
Qed.

(** A turn that starts with fewer than 16 bytes left is the last one when
    the buffer for its payload is obtained: nothing is written. *)
Lemma decompress_file_loop_short (fuel : nat) (s : istream)
    (out : list byte) :
  length (rest s) < 16 ->
  (le_value (skipn 8 (rest s)) <= address_space)%N ->
  decompress_file_loop (S (S fuel)) s out = Ok out.
Proof.
  intros H Ha. cbn [decompress_file_loop].
  destruct (peek s) as [[b|] s0] eqn:P; [|reflexivity].
  assert (s0 = s /\ good s = true) as (-> & Gs).
  { unfold peek in P. destruct (good s); [|discriminate].
    destruct (rest s); [discriminate|]. now inversion P. }
  rewrite <- (read_size_t_twice_value s Gs H) in Ha.
  destruct (read_size_t_twice_short s H) as (G & B).
  destruct (read_size_t s) as [index_ in1].
  cbn [snd] in G, B, Ha.
  destruct (read_size_t in1) as [size_ in2]. cbn [fst snd] in G, B, Ha.
  assert (Hm : (size_ <= max_size)%N) by (rewrite max_size_value; lia).
  destruct (N.ltb_spec max_size size_); [lia|].
  rewrite allocates_small by exact Ha.
  pose proof (read_not_good in2 size_ G) as (Hg & Hs).
  destruct (read in2 size_) as [got in3]. cbn [fst snd] in Hg, Hs.
  subst got. unfold overwrite. cbn [app length skipn].
  rewrite RLEDecompress_zeros by exact Hm. cbn [bind].
  rewrite write_nothing.
  pose proof (peek_not_good in3 Hs) as (Hc & _).
  destruct (peek in3) as [c s']. cbn [fst] in Hc. now subst c.
Qed.

(** With fewer than 16 bytes left, the two [size_t] reads of a turn leave
    nothing in the stream. *)
Lemma read_size_t_twice_rest (s : istream) :
  good s = true -> length (rest s) < 16 ->
  rest (snd (read_size_t (snd (read_size_t s)))) = [].
Proof.
  intros G H. unfold read_size_t at 2. rewrite (read_good s _ G).
  cbn [snd]. change (N.to_nat sizeof_size_t) with 8.
  destruct (N.ltb_spec (size (firstn 8 (rest s))) sizeof_size_t) as [L|L].
  - unfold read_size_t, read. cbn [good eofbit failbit negb andb snd rest].
    apply skipn_all2. unfold size, sizeof_size_t in L.
    rewrite length_firstn in L. lia.
  - unfold read_size_t. rewrite read_good by reflexivity.
    cbn [snd rest]. apply skipn_all2. rewrite length_skipn.
    change (N.to_nat sizeof_size_t) with 8. lia.
Qed.

(** The same turn when the bytes taken for the length make a value above
    [address_space]: the payload is not in the file, [operator new]
    throws. *)
Lemma decompress_file_loop_bad_alloc (fuel : nat) (s : istream)
    (out : list byte) :
  good s = true -> length (rest s) < 16 ->
  (address_space < le_value (skipn 8 (rest s)))%N ->
  decompress_file_loop (S fuel) s out = Fault BadAlloc.
Proof.
  intros Gs H Ha. cbn [decompress_file_loop].
  destruct (peek s) as [[b|] s0] eqn:P.
  - assert (s0 = s) as ->.
    { unfold peek in P. rewrite Gs in P.
      destruct (rest s); [discriminate|]. now inversion P. }
    rewrite <- (read_size_t_twice_value s Gs H) in Ha.
    destruct (read_size_t_twice_short s H) as (_ & B).
    pose proof (read_size_t_twice_rest s Gs H) as R.
    destruct (read_size_t s) as [index_ in1]. cbn [snd] in B, Ha, R.
    destruct (read_size_t in1) as [size_ in2]. cbn [fst snd] in B, Ha, R.
    destruct (N.ltb_spec max_size size_);
      [rewrite max_size_value in *; lia|].
    unfold allocates. rewrite R. cbn [length size N.of_nat].
    rewrite address_space_value in *.
    destruct (N.leb_spec size_ 0); [lia|].
    destruct (N.leb_spec size_ 140737488355328); [lia|]. reflexivity.
  - exfalso. unfold peek in P. rewrite Gs in P.
    destruct (rest s) as [|x l] eqn:E; [|discriminate].
    cbn [skipn le_value] in Ha. lia.
Qed.

(** At most 8 bytes left: the length stays 0 and the loop stops. *)
Lemma decompress_file_loop_tail (fuel : nat) (s : istream)
    (out : list byte) :
  length (rest s) <= 8 -> length (rest s) <= fuel ->
  decompress_file_loop (S fuel) s out = Ok out.
Proof.
  intros H Hf. destruct fuel as [|fuel].
  - destruct (rest s) as [|b l] eqn:E; [|simpl in Hf; lia].
    cbn [decompress_file_loop]. unfold peek. rewrite E.
    now destruct (good s).
  - apply decompress_file_loop_short; [lia|].
    rewrite skipn_all2 by exact H. cbn [le_value].
    rewrite address_space_value. lia.
Qed.

(** ** The decompression loop ends within its budget *)

Lemma read_shrinks (s : istream) (n : N) :
  length (fst (read s n)) <= N.to_nat n
  /\ length (rest (snd (read s n))) <= length (rest s)
  /\ (good (snd (read s n)) = true ->
      good s = true
      /\ length (rest (snd (read s n))) + N.to_nat n = length (rest s)).
Proof.
  destruct (good s) eqn:G.
  - rewrite (read_good s n G). cbn [fst snd rest].
    rewrite length_firstn, length_skipn.
    split; [lia|]. split; [lia|]. intro H. split; [reflexivity|].
    unfold good in H. cbn [eofbit failbit] in H. unfold size in H.
    rewrite length_firstn in H.
    destruct (N.ltb_spec (N.of_nat (Nat.min (N.to_nat n) (length (rest s))))
                n); [discriminate|lia].
  - unfold read. rewrite G. cbn [fst snd rest length].
    split; [lia|]. split; [lia|]. intro H. exfalso.
    unfold good in H. cbn [eofbit failbit] in H.
    rewrite andb_false_r in H. discriminate H.
Qed.

Lemma read_size_t_shrinks (s : istream) :
  length (rest (snd (read_size_t s))) <= length (rest s)
  /\ (good (snd (read_size_t s)) = true ->
      good s = true
      /\ length (rest (snd (read_size_t s))) + 8 = length (rest s)).
Proof.
  unfold read_size_t.
  destruct (read_shrinks s sizeof_size_t) as (_ & H1 & H2).
  destruct (read s sizeof_size_t) as [got s']. cbn [fst snd] in *.
  split; [exact H1|exact H2].
Qed.

Lemma length_overwrite (n : nat) (got : list byte) :
  length got <= n -> length (overwrite (repeat x00 n) got) = n.
Proof.
  intro H. unfold overwrite.
  rewrite length_app, length_skipn, repeat_length. lia.
Qed.

(** On every file, well formed or not, the loop of [decompressFile] is done
    before its iteration budget is used up. *)
Lemma decompress_file_loop_fuel (fuel : nat) :
  forall s out,
    length (rest s) < fuel \/ (good s = false /\ 0 < fuel) ->
    decompress_file_loop fuel s out <> Fault OutOfFuel.
Proof.
  induction fuel as [|fuel IH]; intros s out H; [lia|].
  cbn [decompress_file_loop].
  destruct (peek s) as [[b|] s0] eqn:P; [|discriminate].
  assert (Hs : s0 = s /\ good s = true /\ 0 < length (rest s)).
  { unfold peek in P. destruct (good s); [|discriminate].
    destruct (rest s); [discriminate|]. injection P as _ <-.
    cbn [length]. repeat split. lia. }
  destruct Hs as (-> & G & Hpos).
  destruct H as [H|(H & _)]; [|congruence].
  destruct (read_size_t_shrinks s) as (L1 & G1).
  destruct (read_size_t s) as [index_ in1]. cbn [snd] in L1, G1.
  destruct (read_size_t_shrinks in1) as (L2 & G2).
  destruct (read_size_t in1) as [size_ in2]. cbn [snd] in L2, G2.
  destruct (N.ltb_spec max_size size_) as [|Hm]; [discriminate|].
  destruct (allocates (size (rest in2)) size_); [|discriminate].
  destruct (read_shrinks in2 size_) as (Lg & L3 & G3).
  destruct (read in2 size_) as [got in3]. cbn [fst snd] in Lg, L3, G3.
  rewrite RLEDecompress_spec.
  - cbn [bind]. apply IH.
    destruct (good in3) eqn:G'; [left|right; split; [reflexivity|lia]].
    destruct (G3 eq_refl) as (G2' & _). destruct (G2 G2') as (G1' & _).
    destruct (G1 G1') as (_ & E). lia.
  - apply vec_ok_addressable. unfold vec_ok, size.
    rewrite length_overwrite by exact Lg. lia.
Qed.

Lemma decompressFile_fuel (file : list byte) :
  decompressFile file <> Fault OutOfFuel.
Proof.
  apply decompress_file_loop_fuel. left. cbn [open_in rest]. lia.
Qed.

(** ** Frames written, frames read back *)

Lemma chunk_size_value : CHUNK_SIZE = 1048576%N.
Proof. reflexivity. Qed.

(** From here on the chunk size is used through [chunk_size_value] only, so
    that no tactic evaluates [N.to_nat CHUNK_SIZE] in unary. *)
Opaque CHUNK_SIZE.

Lemma chunk_ok_vec_ok (c : Chunk) : chunk_ok c -> vec_ok (data c).
Proof.
  unfold chunk_ok. rewrite chunk_size_value. intro H. size_lia.
Qed.

Lemma write_size_t (out : list byte) (n : N) :
  write out (size_t_bytes n) sizeof_size_t = out ++ size_t_bytes n.
Proof.
  unfold write. rewrite firstn_all2; [reflexivity|].
  now rewrite length_size_t_bytes.
Qed.

Lemma write_all (out p : list byte) : write out p (size p) = out ++ p.
Proof.
  unfold write, size. rewrite Nnat.Nat2N.id, firstn_all. reflexivity.
Qed.

Lemma write_frame_spec (out : list byte) (c : Chunk) :
  vec_ok (data c) -> write_frame out c = Ok (out ++ frame_bytes c).
Proof.
  intro Hv. unfold write_frame. rewrite RLECompress_spec by exact Hv.
  cbn [bind]. rewrite !write_size_t, write_all.
  unfold frame_bytes. now rewrite <- !app_assoc.
Qed.

Lemma read_exact (a b : list byte) (n : N) :
  N.to_nat n = length a ->
  read (mk_istream (a ++ b) false false) n = (a, mk_istream b false false).
Proof.
  intro H. rewrite read_good by reflexivity. cbn [rest].
  rewrite H, firstn_app, Nat.sub_diag, firstn_all, firstn_O, app_nil_r.
  rewrite skipn_app, Nat.sub_diag, skipn_all. cbn [skipn app].
  assert (E : (size a <? n)%N = false)
    by (apply N.ltb_ge; unfold size; lia).
  now rewrite E.
Qed.

Lemma read_size_t_exact (n : N) (b : list byte) :
  (n < SizeT.modulus)%N ->
  read_size_t (mk_istream (size_t_bytes n ++ b) false false)
  = (n, mk_istream b false false).
Proof.
  intro H. unfold read_size_t.
  rewrite read_exact by now rewrite length_size_t_bytes.
  f_equal. unfold overwrite. rewrite length_size_t_bytes.
  change (size_t_bytes 0) with (repeat x00 8).
  rewrite skipn_repeat, le_value_zeros.
  now apply le_value_size_t_bytes.
Qed.

Lemma payload_size (c : Chunk) :
  chunk_ok c -> (size (rle_encode (data c)) <= 2 * CHUNK_SIZE)%N.
Proof.
  unfold chunk_ok. intro H.
  destruct (encode_shape (data c)) as (_ & _ & L). unfold size in *. lia.
Qed.

(** One turn of the decompression loop on a stream that starts with the
    frame of [c] appends the data of [c] to the output. *)
Lemma decompress_file_loop_frame (fuel : nat) (c : Chunk)
    (more out : list byte) :
  chunk_ok c -> (index c < SizeT.modulus)%N ->
  decompress_file_loop (S fuel)
    (mk_istream (frame_bytes c ++ more) false false) out
  = decompress_file_loop fuel (mk_istream more false false)
      (out ++ data c).
Proof.
  intros Hc Hi. pose proof (payload_size c Hc) as Hp.
  rewrite chunk_size_value in Hp.
  cbn [decompress_file_loop].
  assert (P : peek (mk_istream (frame_bytes c ++ more) false false)
              = (Some (char_of_size_t (index c)),
                 mk_istream (frame_bytes c ++ more) false false))
    by reflexivity.
  rewrite P. unfold frame_bytes. rewrite <- !app_assoc.
  rewrite read_size_t_exact by exact Hi.
  rewrite read_size_t_exact by (rewrite modulus_value; lia).
  destruct (N.ltb_spec max_size (size (rle_encode (data c))));
    [rewrite max_size_value in *; lia|].
  rewrite allocates_small by (rewrite address_space_value; lia).
  rewrite read_exact by (unfold size; lia).
  unfold overwrite. rewrite skipn_repeat.
  replace (N.to_nat (size (rle_encode (data c)))
           - length (rle_encode (data c))) with 0 by (unfold size; lia).
  cbn [repeat]. rewrite app_nil_r.
  rewrite RLEDecompress_spec
    by (apply encode_addressable, chunk_ok_vec_ok, Hc).
  cbn [bind]. now rewrite decode_encode, write_all.
Qed.

Lemma length_frame_bytes (c : Chunk) : 16 <= length (frame_bytes c).
Proof.
  unfold frame_bytes. rewrite !length_app, !length_size_t_bytes. lia.
Qed.

Lemma decompress_file_loop_frames (cs : list Chunk) :
  Forall chunk_ok cs ->
  Forall (fun c => (index c < SizeT.modulus)%N) cs ->
  forall fuel tail out,
    decompress_file_loop (length cs + fuel)
      (mk_istream (frames cs ++ tail) false false) out
    = decompress_file_loop fuel (mk_istream tail false false)
        (out ++ flat_map data cs).
Proof.
  induction cs as [|c cs IH]; intros Hc Hi fuel tail out.
  - cbn. now rewrite app_nil_r.
  - inversion Hc; subst. inversion Hi; subst.
    cbn [frames flat_map length Nat.add]. rewrite <- app_assoc.
    rewrite decompress_file_loop_frame by assumption.
    fold (frames cs). rewrite IH by assumption.
    now rewrite <- app_assoc.
Qed.

Lemma length_frames (cs : list Chunk) : 16 * length cs <= length (frames cs).
Proof.
  induction cs as [|c cs IH]; [simpl; lia|].
  cbn [frames flat_map length]. fold (frames cs). rewrite length_app.
  pose proof (length_frame_bytes c). lia.
Qed.

(** A file made of well-formed frames, followed by at most 8 bytes,
    decompresses to the data of the frames in file order. *)
Lemma decompressFile_frames (cs : list Chunk) (tail : list byte) :
  Forall chunk_ok cs ->
  Forall (fun c => (index c < SizeT.modulus)%N) cs ->
  length tail <= 8 ->
  decompressFile (frames cs ++ tail) = Ok (flat_map data cs).
Proof.
  intros Hc Hi Ht. unfold decompressFile, open_in.
  pose proof (length_frames cs) as L.
  replace (S (length (frames cs ++ tail)))
    with (length cs + S (length (frames cs ++ tail) - length cs))
    by (rewrite length_app; lia).
  rewrite decompress_file_loop_frames by assumption.
  apply decompress_file_loop_tail; cbn [rest]; [exact Ht|].
  rewrite length_app. lia.
Qed.

(** The same file followed by fewer than 16 bytes: past a whole index, the
    bytes left are the low bytes of the length of the buffer the loop asks
    for, and [allocates] decides. *)
Lemma decompressFile_frames_cut_header (cs : list Chunk)
    (tail : list byte) :
  Forall chunk_ok cs ->
  Forall (fun c => (index c < SizeT.modulus)%N) cs ->
  length tail < 16 ->
  decompressFile (frames cs ++ tail)
  = if (address_space <? le_value (skipn 8 tail))%N
    then Fault BadAlloc
    else Ok (flat_map data cs).
Proof.
  intros Hc Hi Ht.
  destruct (Nat.eq_dec (length tail) 0) as [E|E].
  { apply length_zero_iff_nil in E. subst tail.
    rewrite decompressFile_frames by (auto; cbn [length]; lia).
    reflexivity. }
  unfold decompressFile, open_in.
  pose proof (length_frames cs) as L.
  replace (S (length (frames cs ++ tail)))
    with (length cs + S (S (length (frames cs ++ tail) - S (length cs))))
    at 1.
  - rewrite decompress_file_loop_frames by assumption.
    destruct (N.ltb_spec address_space (le_value (skipn 8 tail))) as [A|A].
    + now apply decompress_file_loop_bad_alloc.
    + now apply decompress_file_loop_short.
  - rewrite length_app. lia.
Qed.

(** ** The chunk source *)

Lemma chunk_size_pos : 0 < N.to_nat CHUNK_SIZE.
Proof. rewrite chunk_size_value. lia. Qed.

Lemma next_chunk_Some (s : istream) (idx : N) (c : Chunk) (s' : istream)
    (idx' : N) :
  next_chunk s idx = Some (c, s', idx') ->
  good s = true
  /\ c = mk_Chunk idx (firstn (N.to_nat CHUNK_SIZE) (rest s))
  /\ data c <> []
  /\ rest s' = skipn (N.to_nat CHUNK_SIZE) (rest s)
  /\ good s' = (N.to_nat CHUNK_SIZE <=? length (rest s))
  /\ eofbit s' = negb (good s')
  /\ idx' = SizeT.add idx 1.
Proof.
  unfold next_chunk. intro H.
  destruct (eofbit s) eqn:E; [discriminate|].
  destruct (good s) eqn:G.
  - rewrite (read_good s _ G) in H.
    destruct (size (firstn (N.to_nat CHUNK_SIZE) (rest s)) =? 0)%N eqn:Z;
      [discriminate|].
    injection H as Ec Es Ei. subst c s' idx'.
    cbn [rest data eofbit failbit good].
    apply N.eqb_neq in Z. unfold size in *.
    rewrite length_firstn in *.
    repeat split; auto.
    + intro E0. apply Z. now rewrite <- length_firstn, E0.
    + unfold good. cbn [eofbit failbit].
      destruct (Nat.leb_spec (N.to_nat CHUNK_SIZE) (length (rest s))).
      * replace (N.of_nat _ <? CHUNK_SIZE)%N with false; [reflexivity|].
        symmetry. apply N.ltb_ge. lia.
      * replace (N.of_nat _ <? CHUNK_SIZE)%N with true; [reflexivity|].
        symmetry. apply N.ltb_lt. lia.
    + unfold good. cbn [eofbit failbit]. now destruct (_ <? _)%N.
  - pose proof (read_not_good s CHUNK_SIZE G) as (Hg & _).
    destruct (read s CHUNK_SIZE) as [got s0]. cbn [fst] in Hg. subst got.
    discriminate H.
Qed.

Lemma next_chunk_None (s : istream) (idx : N) :
  next_chunk s idx = None ->
  good s = false \/ rest s = [].
Proof.
  unfold next_chunk. intro H.
  destruct (good s) eqn:G; [right|now left].
  assert (E : eofbit s = false).
  { unfold good in G. now destruct (eofbit s). }
  rewrite E, (read_good s _ G) in H.
  destruct (size (firstn (N.to_nat CHUNK_SIZE) (rest s)) =? 0)%N eqn:Z;
    [|discriminate].
  apply N.eqb_eq in Z. unfold size in Z. rewrite length_firstn in Z.
  pose proof chunk_size_pos.
  destruct (rest s); [reflexivity|cbn [length] in Z; lia].
Qed.

Lemma next_chunk_not_good (s : istream) (idx : N) :
  good s = false -> next_chunk s idx = None.
Proof.
  intro G. unfold next_chunk. destruct (eofbit s); [reflexivity|].
  pose proof (read_not_good s CHUNK_SIZE G) as (Hg & _).
  destruct (read s CHUNK_SIZE) as [got s0]. cbn [fst] in Hg. now subst got.
Qed.

Lemma next_chunk_empty (s : istream) (idx : N) :
  rest s = [] -> next_chunk s idx = None.
Proof.
  intro E. destruct (good s) eqn:G; [|now apply next_chunk_not_good].
  unfold next_chunk. destruct (eofbit s); [reflexivity|].
  rewrite (read_good s _ G), E, firstn_nil. reflexivity.
Qed.

Lemma next_chunk_shorter (s : istream) (idx : N) (c : Chunk) (s' : istream)
    (idx' : N) :
  next_chunk s idx = Some (c, s', idx') ->
  length (rest s') < length (rest s)
  /\ rest s = data c ++ rest s'
  /\ chunk_ok c.
Proof.
  intro H. apply next_chunk_Some in H as (_ & Ec & Hne & Er & _).
  subst c. cbn [data] in *. rewrite Er. pose proof chunk_size_pos.
  repeat split.
  - rewrite length_skipn.
    destruct (rest s); [now rewrite firstn_nil in Hne|].
    cbn [length]. lia.
  - now rewrite firstn_skipn.
  - unfold chunk_ok, size. cbn [data]. rewrite length_firstn. lia.
Qed.

Lemma chunk_loop_enough (fuel : nat) :
  forall fuel' s idx,
    length (rest s) < fuel -> length (rest s) < fuel' ->
    exists cs,
      chunk_loop fuel s idx = Ok cs /\ chunk_loop fuel' s idx = Ok cs.
Proof.
  induction fuel as [|fuel IH]; intros fuel' s idx H H'; [lia|].
  destruct fuel' as [|fuel']; [lia|].
  cbn [chunk_loop].
  destruct (next_chunk s idx) as [[[c s'] idx']|] eqn:E.
  - destruct (next_chunk_shorter _ _ _ _ _ E) as (L & _).
    destruct (IH fuel' s' idx') as (cs & E1 & E2); try lia.
    exists (c :: cs). now rewrite E1, E2.
  - now exists [].
Qed.

Lemma chunk_loop_remaining (fuel : nat) (s : istream) (idx : N) :
  length (rest s) < fuel -> chunk_loop fuel s idx = Ok (remaining s idx).
Proof.
  intro H. unfold remaining.
  destruct (chunk_loop_enough fuel (S (length (rest s))) s idx)
    as (cs & E1 & E2); try lia.
  now rewrite E1, E2.
Qed.

Lemma remaining_None (s : istream) (idx : N) :
  next_chunk s idx = None -> remaining s idx = [].
Proof.
  intro E. unfold remaining. cbn [chunk_loop]. now rewrite E.
Qed.

Lemma remaining_Some (s : istream) (idx : N) (c : Chunk) (s' : istream)
    (idx' : N) :
  next_chunk s idx = Some (c, s', idx') ->
  remaining s idx = c :: remaining s' idx'.
Proof.
  intro E. unfold remaining at 1. cbn [chunk_loop]. rewrite E.
  destruct (next_chunk_shorter _ _ _ _ _ E) as (L & _).
  rewrite chunk_loop_remaining by lia. reflexivity.
Qed.

Lemma chunkSource_remaining (file : list byte) :
  chunkSource file = Ok (remaining (open_in file) 0).
Proof. unfold chunkSource. apply chunk_loop_remaining. cbn [open_in rest]. lia. Qed.

Lemma wrap_add_succ (idx : N) (j : nat) :
  SizeT.wrap (SizeT.add idx 1 + N.of_nat j)
  = SizeT.wrap (idx + N.of_nat (S j)).
Proof.
  unfold SizeT.add, SizeT.wrap.
  rewrite N.Div0.add_mod_idemp_l. f_equal. lia.
Qed.

Lemma add_lt_modulus (a b : N) : (SizeT.add a b < SizeT.modulus)%N.
Proof. apply N.mod_upper_bound. discriminate. Qed.

(** The chunks to come from a good stream: the windows of [CHUNK_SIZE] bytes
    of what is left, numbered from [idx]. *)
Lemma remaining_spec (n : nat) :
  forall s idx,
    length (rest s) <= n -> good s = true -> (idx < SizeT.modulus)%N ->
    flat_map data (remaining s idx) = rest s
    /\ Forall chunk_ok (remaining s idx)
    /\ (forall k c, nth_error (remaining s idx) k = Some c ->
          index c = SizeT.wrap (idx + N.of_nat k)
          /\ data c
             = firstn (N.to_nat CHUNK_SIZE)
                 (skipn (k * N.to_nat CHUNK_SIZE) (rest s))
          /\ data c <> [])
    /\ length (rest s) <= length (remaining s idx) * N.to_nat CHUNK_SIZE
    /\ length (remaining s idx) * N.to_nat CHUNK_SIZE
       < length (rest s) + N.to_nat CHUNK_SIZE.
Proof.
  pose proof chunk_size_pos as Hpos.
  induction n as [n IH] using (well_founded_induction lt_wf).
  intros s idx Hn G Hi.
  destruct (next_chunk s idx) as [[[c s'] idx']|] eqn:E.
  - rewrite (remaining_Some _ _ _ _ _ E).
    destruct (next_chunk_shorter _ _ _ _ _ E) as (L & Ers & Hc).
    destruct (next_chunk_Some _ _ _ _ _ E)
      as (_ & Ec & Hne & Er & Gs' & _ & Ei).
    destruct (good s') eqn:G'.
    + symmetry in Gs'. apply Nat.leb_le in Gs'.
      destruct (IH (length (rest s')) ltac:(lia) s' idx' (le_n _) G')
        as (F & A & K & C1 & C2).
      { subst idx'. apply add_lt_modulus. }
      cbn [flat_map length]. rewrite F. repeat split.
      * now symmetry.
      * now constructor.
      * destruct k as [|j]; cbn [nth_error] in H.
        -- injection H as <-. subst c. cbn [index].
           rewrite N.add_0_r. symmetry. now apply wrap_small.
        -- apply K in H as (H1 & _). rewrite H1. subst idx'.
           apply wrap_add_succ.
      * destruct k as [|j]; cbn [nth_error] in H.
        -- injection H as <-. now subst c.
        -- apply K in H as (_ & H2 & _). rewrite H2, Er, skipn_skipn.
           do 2 f_equal. lia.
      * destruct k as [|j]; cbn [nth_error] in H.
        -- now injection H as <-.
        -- now apply K in H as (_ & _ & H3).
      * rewrite Er, length_skipn in C1. lia.
      * rewrite Er, length_skipn in C2. lia.
    + symmetry in Gs'. apply Nat.leb_gt in Gs'.
      rewrite (remaining_None s' idx') by now apply next_chunk_not_good.
      assert (El : rest s' = []).
      { rewrite Er. apply skipn_all2. lia. }
      rewrite El, app_nil_r in Ers.
      cbn [flat_map length]. rewrite app_nil_r. repeat split.
      * now symmetry.
      * now repeat constructor.
      * destruct k as [|[|j]]; cbn [nth_error] in H; try discriminate.
        injection H as <-. subst c. cbn [index].
        rewrite N.add_0_r. symmetry. now apply wrap_small.
      * destruct k as [|[|j]]; cbn [nth_error] in H; try discriminate.
        injection H as <-. now subst c.
      * destruct k as [|[|j]]; cbn [nth_error] in H; try discriminate.
        now injection H as <-.
      * lia.
      * destruct (rest s); [now rewrite Ers in Hne|]. cbn [length]. lia.
  - rewrite (remaining_None _ _ E).
    destruct (next_chunk_None _ _ E) as [G'|El]; [congruence|].
    rewrite El. cbn [flat_map length]. repeat split; auto; try lia.
    all: destruct k; discriminate.
Qed.

(** ** The pipeline: invariant *)

Section Pipeline.

Variable file : list byte.
Variable threadCount : nat.

Lemma frames_app (a b : list Chunk) : frames (a ++ b) = frames a ++ frames b.
Proof. apply flat_map_app. Qed.

Lemma frames_one (c : Chunk) : frames [c] = frame_bytes c.
Proof. unfold frames. cbn [flat_map]. apply app_nil_r. Qed.

Lemma singleton_split {A : Type} (l1 l2 : list A) (x y : A) :
  l1 ++ x :: l2 = [y] -> l1 = [] /\ l2 = [] /\ x = y.
Proof.
  destruct l1 as [|a l1]; cbn [app]; intro H.
  - injection H as -> ->. auto.
  - injection H as _ H. now destruct l1.
Qed.

Lemma invariant_init :
  invariant file threadCount (init file threadCount).
Proof.
  exists []. cbn [init p_main p_in p_index doneReading workers workQueue app].
  repeat split; try discriminate; auto.
  - apply repeat_length.
  - apply Forall_forall. intros w Hw. apply repeat_spec in Hw. now subst w.
  - apply Forall_forall. intros w Hw. apply repeat_spec in Hw. now subst w.
  - intros w Hw. destruct threadCount as [|[|n]]; try discriminate.
    cbn [repeat] in Hw. injection Hw as <-. reflexivity.
Qed.

Lemma invariant_step (p p' : pipeline) :
  invariant file threadCount p -> step p p' -> invariant file threadCount p'.
Proof.
  intros (pushed & Hrem & Hidx & Hdone & Hlen & Hq & Hh & Hex & Hone) Hstep.
  unfold invariant.
  destruct Hstep as [in_ idx q done ws c in' idx' E
                    | in_ idx q done ws E
                    | in_ idx q done ws
                    | in_ idx m q done ws1 w ws2 q' done' w' Hw];
    cbn [p_main p_in p_index doneReading workers workQueue] in *.
  - (* a chunk is pushed *)
    destruct (next_chunk_shorter _ _ _ _ _ E) as (_ & _ & Hc).
    destruct (next_chunk_Some _ _ _ _ _ E) as (_ & _ & _ & _ & _ & _ & Ei).
    assert (Hnd : done = false).
    { destruct done; [|reflexivity]. discriminate (proj1 Hdone eq_refl). }
    exists (pushed ++ [c]). repeat split; auto.
    + rewrite Hrem, (remaining_Some _ _ _ _ _ E), <- app_assoc. reflexivity.
    + subst idx' idx. rewrite length_app. cbn [length].
      unfold SizeT.add, SizeT.wrap.
      rewrite N.Div0.add_mod_idemp_l. f_equal. lia.
    + apply Hdone.
    + apply Hdone.
    + apply Forall_app. split; [exact Hq|]. now repeat constructor.
    + subst done. eapply Forall_impl; [|exact Hex].
      cbn beta. intros w H1 H2. now destruct (H1 H2).
    + intros w Hw. rewrite !frames_app, frames_one.
      rewrite !app_assoc. f_equal. rewrite <- app_assoc. now apply Hone.
  - (* the reading loop is left *)
    exists pushed. repeat split; auto; try discriminate.
    + now rewrite Hrem, (remaining_None _ _ E).
    + intro H. discriminate (proj1 Hdone H).
  - (* doneReading is set *)
    exists pushed. repeat split; auto.
    eapply Forall_impl; [|exact Hex].
    cbn beta. intros w H1 H2. now destruct (H1 H2).
  - (* a worker moves *)
    exists pushed.
    apply Forall_app in Hh as (Hh1 & Hh2).
    apply Forall_cons_iff in Hh2 as (Hhw & Hh2).
    apply Forall_app in Hex as (Hex1 & Hex2).
    apply Forall_cons_iff in Hex2 as (Hexw & Hex2).
    rewrite length_app in *. cbn [length] in *.
    inversion Hw; subst; clear Hw;
      repeat split; auto; try apply Hdone.
    + now inversion Hq.
    + apply Forall_app. split; [exact Hh1|]. constructor; [|exact Hh2].
      unfold held. cbn [w_pc]. inversion Hq. now repeat constructor.
    + apply Forall_app. split.
      * eapply Forall_impl; [|exact Hex1]. cbn beta.
        intros w H1 H2. now destruct (H1 H2).
      * constructor; [discriminate|].
        eapply Forall_impl; [|exact Hex2]. cbn beta.
        intros w H1 H2. now destruct (H1 H2).
    + intros w Hw. apply singleton_split in Hw as (-> & -> & <-).
      specialize (Hone _ eq_refl). unfold held in *. cbn [w_pc w_out] in *.
      rewrite <- Hone. cbn [frames flat_map app]. rewrite app_nil_r.
      reflexivity.
    + apply Forall_app. split; [exact Hh1|]. constructor; [|exact Hh2].
      constructor.
    + apply Forall_app. split; [exact Hex1|]. now constructor.
    + intros w Hw. apply singleton_split in Hw as (-> & -> & <-).
      specialize (Hone _ eq_refl). exact Hone.
    + apply Forall_app. split; [exact Hh1|]. constructor; [|exact Hh2].
      constructor.
    + apply Forall_app. split; [exact Hex1|].
      constructor; [discriminate|exact Hex2].
    + intros w Hw. apply singleton_split in Hw as (-> & -> & <-).
      specialize (Hone _ eq_refl). unfold held in *. cbn [w_pc w_out] in *.
      unfold held in Hhw. cbn [w_pc] in Hhw. inversion Hhw; subst.
      match goal with
      | H : write_frame _ _ = Ok _ |- _ =>
          rewrite write_frame_spec in H by now apply chunk_ok_vec_ok
      end.
      match goal with H : Ok _ = Ok _ |- _ => injection H as <- end.
      rewrite <- Hone, frames_one. cbn [frames flat_map app].
      now rewrite <- app_assoc.
Qed.

Lemma invariant_steps (p : pipeline) :
  steps (init file threadCount) p -> invariant file threadCount p.
Proof.
  intro H. remember (init file threadCount) as p0 eqn:E.
  induction H as [p|p q r H IH Hs].
  - subst p. apply invariant_init.
  - eapply invariant_step; [apply IH, E|exact Hs].
Qed.

(** ** The pipeline: progress and termination *)

Lemma steps_cons (p q r : pipeline) : step p q -> steps q r -> steps p r.
Proof.
  intros H Hs. induction Hs as [q|q r t Hs IH Ht].
  - eapply steps_snoc; [apply steps_refl|exact H].
  - eapply steps_snoc; [apply IH, H|exact Ht].
Qed.

Lemma exited_or_not (ws : list worker) :
  Forall (fun w => w_pc w = WExited) ws
  \/ exists ws1 w ws2, ws = ws1 ++ w :: ws2 /\ w_pc w <> WExited.
Proof.
  induction ws as [|w ws [IH|(ws1 & w' & ws2 & E & H)]].
  - left. constructor.
  - destruct (w_pc w) eqn:Ew.
    + right. exists [], w, ws. split; [reflexivity|]. now rewrite Ew.
    + right. exists [], w, ws. split; [reflexivity|]. now rewrite Ew.
    + left. now constructor.
  - right. exists (w :: ws1), w', ws2. split; [now rewrite E|exact H].
Qed.

(** No deadlock: a reachable state has finished or can move. *)
Lemma progress (p : pipeline) :
  invariant file threadCount p -> finished p \/ exists p', step p p'.
Proof.
  intros (pushed & _ & _ & Hdone & _ & Hq & Hh & _ & _).
  destruct p as [in_ idx m q done ws].
  cbn [p_main doneReading workers workQueue] in *.
  destruct m.
  - right. destruct (next_chunk in_ idx) as [[[c in'] idx']|] eqn:E.
    + eexists. now apply SPush with (1 := E).
    + eexists. now apply SEndOfInput.
  - right. eexists. apply SDone.
  - destruct (exited_or_not ws) as [H|(ws1 & w & ws2 & E & H)].
    + left. now split.
    + right. subst ws. assert (Hd : done = true) by now apply Hdone.
      subst done. destruct w as [pc out]. cbn [w_pc] in H.
      destruct pc as [|c|]; [| |now contradiction H].
      * destruct q as [|c q].
        -- eexists. apply SWorker. apply WExit.
        -- eexists. apply SWorker. apply WPop.
      * apply Forall_app in Hh as (_ & Hh).
        apply Forall_cons_iff in Hh as (Hc & _).
        unfold held in Hc. cbn [w_pc] in Hc. inversion Hc; subst.
        eexists. apply SWorker. apply WWrite.
        apply write_frame_spec. now apply chunk_ok_vec_ok.
Qed.

Lemma list_sum_middle (f : worker -> nat) (ws1 ws2 : list worker)
    (w : worker) :
  list_sum (map f (ws1 ++ w :: ws2))
  = list_sum (map f ws1) + f w + list_sum (map f ws2).
Proof.
  rewrite map_app, list_sum_app.
  change (list_sum (map f (w :: ws2))) with (f w + list_sum (map f ws2)).
  lia.
Qed.

(** Every transition lowers the measure: every run is finite. *)
Lemma step_measure (p p' : pipeline) :
  step p p' -> measure p' < measure p.
Proof.
  intros [in_ idx q done ws c in' idx' E
         | in_ idx q done ws E
         | in_ idx q done ws
         | in_ idx m q done ws1 w ws2 q' done' w' Hw];
    unfold measure; cbn [p_main p_in workQueue workers].
  - destruct (next_chunk_shorter _ _ _ _ _ E) as (L & _).
    rewrite length_app. cbn [length]. lia.
  - lia.
  - lia.
  - rewrite !list_sum_middle.
    inversion Hw; subst; unfold worker_measure; cbn [w_pc length]; lia.
Qed.

(** [compressFile] returns: from every reachable state some run reaches a
    finished state. *)
Lemma run_to_finish (n : nat) :
  forall p,
    measure p <= n -> invariant file threadCount p ->
    exists p', steps p p' /\ finished p'.
Proof.
  induction n as [n IH] using (well_founded_induction lt_wf).
  intros p Hn Hinv.
  destruct (progress _ Hinv) as [F|(p1 & Hs)].
  - exists p. split; [apply steps_refl|exact F].
  - pose proof (step_measure _ _ Hs) as Hm.
    destruct (IH (measure p1) ltac:(lia) p1 (le_n _)
                (invariant_step _ _ Hinv Hs)) as (p' & Hs' & F).
    exists p'. split; [now apply steps_cons with p1|exact F].
Qed.

End Pipeline.

Lemma Forall_nth_error {A : Type} (P : A -> Prop) (l : list A) :
  (forall k x, nth_error l k = Some x -> P x) -> Forall P l.
Proof.
  intro H. apply Forall_forall. intros x Hx.
  apply In_nth_error in Hx as (k & Hk). now apply (H k).
Qed.

(** The chunks of a whole file. *)
Lemma chunks_of_file (file : list byte) :
  let cs := remaining (open_in file) 0 in
  flat_map data cs = file
  /\ Forall chunk_ok cs
  /\ Forall (fun c => (index c < SizeT.modulus)%N) cs.
Proof.
  destruct (remaining_spec (length file) (open_in file) 0%N (le_n _) eq_refl
              eq_refl) as (F & A & K & _).
  cbn zeta. repeat split; auto.
  apply Forall_nth_error. intros k c H. apply K in H as (-> & _).
  apply N.mod_upper_bound. discriminate.
Qed.

Lemma chunk_count (file : list byte) :
  N.of_nat (length (remaining (open_in file) 0))
  = ((size file + CHUNK_SIZE - 1) / CHUNK_SIZE)%N.
Proof.
  destruct (remaining_spec (length file) (open_in file) 0%N (le_n _) eq_refl
              eq_refl) as (_ & _ & _ & C1 & C2).
  cbn [open_in rest] in C1, C2. pose proof chunk_size_pos as Hpos.
  set (m := length (remaining (open_in file) 0)) in *. clearbody m.
  apply N.div_unique
    with (r := (size file + CHUNK_SIZE - 1 - CHUNK_SIZE * N.of_nat m)%N);
    unfold size; nia.
Qed.

(** * Claims on the codec *)

(** C1: for every byte sequence [S] held in a vector, [RLECompress S] returns
    a vector and [RLEDecompress] of that vector returns [S]: encoding followed
    by decoding is the identity, also on the empty input and on inputs with
    runs longer than 255. *)
Theorem RLE_roundtrip (S : vec) :
  vec_ok S ->
  exists c, RLECompress S = Ok c /\ RLEDecompress c = Ok S.
Proof.
  intro Hv. exists (rle_encode S). split.
  - now apply RLECompress_spec.
  - rewrite RLEDecompress_spec by now apply encode_addressable.
    now rewrite decode_encode.
Qed.

Lemma RLE_roundtrip_witness :
  vec_ok (repeat "A"%byte 300 ++ ["B"%byte])
  /\ exists c, RLECompress (repeat "A"%byte 300 ++ ["B"%byte]) = Ok c
               /\ RLEDecompress c = Ok (repeat "A"%byte 300 ++ ["B"%byte]).
Proof.
  assert (H : vec_ok (repeat "A"%byte 300 ++ ["B"%byte]))
    by (vm_compute; discriminate).
  split; [exact H | exact (RLE_roundtrip _ H)].
Defined.

(** C3: a maximal run of [n >= 1] bytes [x] (the byte before it, if any, and
    the byte after it, if any, differ from [x]) is encoded as the pairs of
    its slices of 255: [n / 255] pairs [(x, 255)] and then [(x, n mod 255)]
    when that is not zero, every count between 1 and 255; what precedes and
    what follows the run is encoded on its own.  A run of 300 bytes [X]
    encodes to [(X, 255)] followed by [(X, 45)]. *)
Theorem RLE_run_splitting :
  (forall (pre : vec) (x : byte) (n : nat) (post : vec),
      1 <= n ->
      (pre <> [] -> last pre x <> x) ->
      hd_error post <> Some x ->
      vec_ok (pre ++ repeat x n ++ post) ->
      exists a b,
        RLECompress pre = Ok a /\ RLECompress post = Ok b
        /\ RLECompress (pre ++ repeat x n ++ post)
           = Ok (a ++ run_pairs x (N.of_nat n) ++ b)
        /\ well_formed_pairs (run_pairs x (N.of_nat n)) = true)
  /\ (forall X : byte,
         RLECompress (repeat X 300) = Ok [X; xff; X; x2d]).
Proof.
  split.
  - intros pre x n post Hn Hpre Hpost Hv.
    assert (Hl : length (pre ++ repeat x n ++ post)
                 = length pre + (n + length post))
      by now rewrite !length_app, repeat_length.
    exists (rle_encode pre), (rle_encode post). repeat split.
    + apply RLECompress_spec. unfold vec_ok, size in *. lia.
    + apply RLECompress_spec. unfold vec_ok, size in *. lia.
    + rewrite RLECompress_spec by assumption. f_equal.
      rewrite (encode_app pre (repeat x n ++ post) x).
      * now rewrite (encode_repeat x post Hpost n Hn).
      * intros Hne. destruct n as [|m]; [lia|]. cbn [repeat app hd_error].
        intro E. apply (Hpre Hne). injection E as E. now symmetry.
    + apply run_pairs_well_formed.
  - intro X.
    assert (Hv : vec_ok (repeat X 300)).
    { unfold vec_ok, size. rewrite repeat_length. vm_compute. discriminate. }
    rewrite RLECompress_spec by exact Hv.
    rewrite <- (app_nil_r (repeat X 300)).
    rewrite (encode_repeat X []) by (discriminate || lia).
    reflexivity.
Qed.

Lemma RLE_run_splitting_witness :
  exists a b,
    RLECompress ["B"%byte] = Ok a /\ RLECompress ["C"%byte] = Ok b
    /\ RLECompress (["B"%byte] ++ repeat "A"%byte 300 ++ ["C"%byte])
       = Ok (a ++ run_pairs "A"%byte (N.of_nat 300) ++ b)
    /\ well_formed_pairs (run_pairs "A"%byte (N.of_nat 300)) = true.
Proof.
  apply (proj1 RLE_run_splitting ["B"%byte] "A"%byte 300 ["C"%byte]).
  - lia.
  - intros _. discriminate.
  - discriminate.
  - vm_compute. discriminate.
Defined.

(** C7: on an input of odd length [RLEDecompress] returns, without fault,
    what it returns on the input with its last byte removed: the trailing
    byte is dropped. *)
Theorem RLEDecompress_odd_length (input : vec) :
  vec_ok input ->
  Nat.odd (length input) = true ->
  exists out,
    RLEDecompress input = Ok out
    /\ RLEDecompress (removelast input) = Ok out.
Proof.
  intros Hv Ho. destruct (odd_removelast_even input Ho) as (E & Ev).
  assert (Hr : addressable (removelast input)).
  { apply vec_ok_addressable. unfold vec_ok, size in *.
    rewrite E, length_app in Hv. lia. }
  exists (rle_decode (removelast input)). split.
  - rewrite RLEDecompress_spec by now apply vec_ok_addressable.
    rewrite E at 1. rewrite rle_decode_app_even by exact Ev.
    rewrite rle_decode_single. apply f_equal, app_nil_r.
  - now apply RLEDecompress_spec.
Qed.

Lemma RLEDecompress_odd_length_witness :
  exists out,
    RLEDecompress ["A"; x03; "B"; x02; "C"]%byte = Ok out
    /\ RLEDecompress (removelast ["A"; x03; "B"; x02; "C"]%byte) = Ok out.
Proof.
  apply RLEDecompress_odd_length.
  - vm_compute. discriminate.
  - reflexivity.
Defined.

(** C8: on every vector, well formed or not, [RLEDecompress] ends with a
    result: the loop terminates ([OutOfFuel] is not the result) and no read of
    [input[i]] or [input[i + 1]] is outside the vector ([OutOfBounds] is not
    the result, and a read succeeds at the indices below [size input]
    only). *)
Theorem RLEDecompress_total (input : vec) :
  vec_ok input ->
  (exists out, RLEDecompress input = Ok out)
  /\ (forall i, (exists b, at_ input i = Ok b) <-> (i < size input)%N).
Proof.
  intro Hv. split.
  - exists (rle_decode input).
    now apply RLEDecompress_spec, vec_ok_addressable.
  - intro i. unfold at_, size. split.
    + intros (b & H).
      destruct (nth_error input (N.to_nat i)) eqn:E; [|discriminate].
      assert (N.to_nat i < length input)
        by (apply nth_error_Some; congruence).
      lia.
    + intro H. destruct (nth_error input (N.to_nat i)) as [b|] eqn:E.
      * now exists b.
      * apply nth_error_None in E. lia.
Qed.

Lemma RLEDecompress_total_witness :
  (exists out, RLEDecompress ["A"; xff; x00; x00; "Z"]%byte = Ok out)
  /\ (forall i,
        (exists b, at_ ["A"; xff; x00; x00; "Z"]%byte i = Ok b)
        <-> (i < size ["A"; xff; x00; x00; "Z"]%byte)%N).
Proof.
  apply RLEDecompress_total. vm_compute. discriminate.
Defined.

(** C9: the output of [RLECompress] has even length, is a sequence of
    [(value, count)] pairs whose count bytes are between 1 and 255 (never 0),
    and is at most twice as long as the input. *)
Theorem RLECompress_shape (input : vec) :
  vec_ok input ->
  exists out,
    RLECompress input = Ok out
    /\ Nat.even (length out) = true
    /\ well_formed_pairs out = true
    /\ length out <= 2 * length input.
Proof.
  intro Hv. exists (rle_encode input).
  destruct (encode_shape input) as (W & Ev & L).
  repeat split; auto. now apply RLECompress_spec.
Qed.

Lemma RLECompress_shape_witness :
  exists out,
    RLECompress (repeat x00 600 ++ ["a"; "b"; "b"]%byte) = Ok out
    /\ Nat.even (length out) = true
    /\ well_formed_pairs out = true
    /\ length out <= 2 * length (repeat x00 600 ++ ["a"; "b"; "b"]%byte).
Proof.
  apply RLECompress_shape. vm_compute. discriminate.
Defined.

(** * Claims on the chunk source, the frames and the pipeline *)

(** C4: the reading loop of [compressFile] cuts the input in windows of
    [CHUNK_SIZE] = 1024 * 1024 bytes: chunk [k] has index [k] and holds the
    bytes from offset [k * CHUNK_SIZE], exactly [CHUNK_SIZE] of them unless it
    is the last chunk, which holds the bytes that remain (at least one); the
    chunks together are the input, their number is the input size divided by
    the chunk size, rounded up, so nothing is produced once no byte is left.
    An input of one and a half chunk sizes gives exactly two chunks, a full
    one and a half one; with any number of workers and any schedule, the
    counter of chunks produced stands at the number of chunks when the
    reading loop is left. *)
Theorem chunk_source_windows (file : list byte) :
  (size file < SizeT.modulus)%N ->
  exists cs,
    chunkSource file = Ok cs
    /\ flat_map data cs = file
    /\ N.of_nat (length cs) = ((size file + CHUNK_SIZE - 1) / CHUNK_SIZE)%N
    /\ (forall k c, nth_error cs k = Some c ->
          index c = N.of_nat k
          /\ data c = firstn (N.to_nat CHUNK_SIZE)
                        (skipn (k * N.to_nat CHUNK_SIZE) file)
          /\ (1 <= size (data c) <= CHUNK_SIZE)%N
          /\ (S k < length cs -> size (data c) = CHUNK_SIZE))
    /\ (size file = (3 * CHUNK_SIZE / 2)%N ->
          exists c1 c2,
            cs = [c1; c2]
            /\ size (data c1) = CHUNK_SIZE
            /\ size (data c2) = (CHUNK_SIZE / 2)%N)
    /\ (forall threadCount p,
          steps (init file threadCount) p -> p_main p <> MReading ->
          p_index p = N.of_nat (length cs)).
Proof.
  intro Hsize. exists (remaining (open_in file) 0).
  pose proof (chunk_count file) as Hcount.
  destruct (remaining_spec (length file) (open_in file) 0%N (le_n _) eq_refl
              eq_refl) as (F & A & K & C1 & C2).
  cbn [open_in rest] in F, K, C1, C2. pose proof chunk_size_pos as Hpos.
  set (cs := remaining (open_in file) 0) in *.
  assert (Hlen : length cs <= length file).
  { destruct cs as [|c0 cs0] eqn:Ecs; [cbn [length]; lia|].
    rewrite <- Ecs in *. nia. }
  assert (Hk : forall k c, nth_error cs k = Some c ->
             index c = N.of_nat k
             /\ data c = firstn (N.to_nat CHUNK_SIZE)
                           (skipn (k * N.to_nat CHUNK_SIZE) file)
             /\ (1 <= size (data c) <= CHUNK_SIZE)%N
             /\ (S k < length cs -> size (data c) = CHUNK_SIZE)).
  { intros k c H.
    assert (Hkl : k < length cs) by (apply nth_error_Some; congruence).
    destruct (K k c H) as (Hi & Hd & Hne).
    assert (L : length (data c)
                = Nat.min (N.to_nat CHUNK_SIZE)
                    (length file - k * N.to_nat CHUNK_SIZE))
      by now rewrite Hd, length_firstn, length_skipn.
    repeat split.
    - rewrite Hi, N.add_0_l. apply wrap_small. unfold size in Hsize. lia.
    - exact Hd.
    - unfold size. destruct (data c); [now contradiction Hne|].
      cbn [length]. lia.
    - unfold size. lia.
    - intro Hl. unfold size. rewrite L.
      assert ((k + 2) * N.to_nat CHUNK_SIZE
              <= length cs * N.to_nat CHUNK_SIZE)
        by (apply Nat.mul_le_mono_r; lia).
      lia. }
  split; [apply chunkSource_remaining|].
  split; [exact F|]. split; [exact Hcount|]. split; [exact Hk|]. split.
  - intro Hhalf. rewrite Hhalf in Hcount.
    rewrite chunk_size_value in Hcount.
    change ((3 * 1048576 / 2 + 1048576 - 1) / 1048576)%N with 2%N in Hcount.
    destruct cs as [|c1 [|c2 [|c3 cs']]] eqn:Ecs;
      cbn [length] in Hcount; try lia.
    exists c1, c2. rewrite <- Ecs in *.
    destruct (Hk 0 c1) as (_ & _ & _ & H1); [now rewrite Ecs|].
    assert (S1 : size (data c1) = CHUNK_SIZE)
      by (apply H1; rewrite Ecs; cbn [length]; lia).
    repeat split; [exact S1|].
    assert (Hf : size file = (size (data c1) + size (data c2))%N).
    { rewrite <- F at 1. rewrite Ecs. cbn [flat_map].
      unfold size. rewrite !length_app. cbn [length]. lia. }
    rewrite S1, Hhalf, chunk_size_value in Hf. rewrite chunk_size_value.
    change (3 * 1048576 / 2)%N with 1572864%N in Hf.
    change (1048576 / 2)%N with 524288%N. lia.
  - intros threadCount p Hs Hm.
    destruct (invariant_steps _ _ _ Hs) as (pushed & Hrem & Hidx & _).
    fold cs in Hrem. rewrite Hidx.
    assert (Ep : cs = pushed).
    { rewrite Hrem. destruct (p_main p); [now contradiction Hm| |];
        apply app_nil_r. }
    rewrite <- Ep. apply wrap_small. unfold size in Hsize. lia.
Qed.

Lemma chunk_source_windows_witness :
  exists cs,
    chunkSource (repeat x00 (N.to_nat (3 * CHUNK_SIZE / 2))) = Ok cs
    /\ exists c1 c2,
         cs = [c1; c2]
         /\ size (data c1) = CHUNK_SIZE
         /\ size (data c2) = (CHUNK_SIZE / 2)%N.
Proof.
  assert (Hs : size (repeat x00 (N.to_nat (3 * CHUNK_SIZE / 2)))
               = (3 * CHUNK_SIZE / 2)%N)
    by (unfold size; rewrite repeat_length; apply Nnat.N2Nat.id).
  assert (Hm : (size (repeat x00 (N.to_nat (3 * CHUNK_SIZE / 2)))
                < SizeT.modulus)%N)
    by (rewrite Hs, chunk_size_value; reflexivity).
  destruct (chunk_source_windows _ Hm) as (cs & E & _ & _ & _ & H & _).
  exists cs. split; [exact E | exact (H Hs)].
Defined.

(** C2: with one worker and a fresh output file, [compressFile] returns
    under every schedule of the reading thread and the worker (a state that
    has not finished can move, and every transition lowers [measure], so
    every run is finite and ends finished), and the file the worker has then
    written holds the frames of the chunks in the order they were pushed,
    and decompresses to the input, byte for byte. *)
Theorem single_worker_roundtrip (file : list byte) :
  (exists p, steps (init file 1) p /\ finished p)
  /\ (forall p, steps (init file 1) p ->
        finished p \/ exists p', step p p')
  /\ (forall p p', steps (init file 1) p -> step p p' ->
        measure p' < measure p)
  /\ (forall p, steps (init file 1) p -> finished p ->
        exists cs out,
          chunkSource file = Ok cs
          /\ workers p = [mk_worker WExited out]
          /\ out = frames cs
          /\ decompressFile out = Ok file).
Proof.
  split; [|split; [|split]].
  - apply (run_to_finish file 1 (measure (init file 1))); [lia|].
    apply invariant_init.
  - intros p Hs. apply (progress file 1). now apply invariant_steps.
  - intros p p' _ Hs. now apply step_measure.
  - intros p Hs (Hm & Hw).
    destruct (invariant_steps _ _ _ Hs)
      as (pushed & Hrem & _ & _ & Hlen & _ & _ & Hex & Hone).
    destruct (workers p) as [|[pc out] [|w' ws]] eqn:Ew; try discriminate.
    inversion Hw as [|? ? Hpc _]; subst. cbn [w_pc] in Hpc. subst pc.
    inversion Hex as [|? ? Hq _]; subst. cbn [w_pc] in Hq.
    destruct (Hq eq_refl) as (Eq & _).
    specialize (Hone _ eq_refl). unfold held in Hone.
    cbn [w_pc w_out] in Hone. rewrite Eq in Hone.
    cbn [frames flat_map app] in Hone. rewrite app_nil_r in Hone.
    rewrite Hm, app_nil_r in Hrem.
    exists pushed, out.
    split; [rewrite <- Hrem; apply chunkSource_remaining|].
    split; [reflexivity|]. split; [exact Hone|].
    destruct (chunks_of_file file) as (F & A & I). cbn zeta in F, A, I.
    rewrite Hrem in F, A, I.
    rewrite Hone, <- (app_nil_r (frames pushed)), <- F.
    apply decompressFile_frames; auto. cbn [length]. lia.
Qed.

Lemma single_worker_roundtrip_witness :
  exists p out,
    steps (init ["a"; "a"; "a"; "b"]%byte 1) p
    /\ finished p
    /\ workers p = [mk_worker WExited out]
    /\ decompressFile out = Ok ["a"; "a"; "a"; "b"]%byte.
Proof.
  destruct (single_worker_roundtrip ["a"; "a"; "a"; "b"]%byte)
    as ((p & Hs & F) & _ & _ & H).
  destruct (H p Hs F) as (cs & out & _ & Ew & _ & Ed).
  exists p, out. auto.
Defined.

(** C5: what a worker gives to its output stream for a chunk is the chunk
    index on 8 bytes, the payload length on 8 bytes, then the payload, which
    is [RLECompress] of the chunk's data; the length field read back as a
    [size_t] is the length of the payload.  A worker's stream changes by such
    a record only. *)
Theorem frame_layout :
  (forall (out : list byte) (chunk : Chunk),
      vec_ok (data chunk) -> (index chunk < SizeT.modulus)%N ->
      exists payload,
        RLECompress (data chunk) = Ok payload
        /\ write_frame out chunk
           = Ok (out ++ size_t_bytes (index chunk)
                     ++ size_t_bytes (size payload) ++ payload)
        /\ length (size_t_bytes (index chunk)) = 8
        /\ length (size_t_bytes (size payload)) = 8
        /\ le_value (size_t_bytes (index chunk)) = index chunk
        /\ le_value (size_t_bytes (size payload)) = size payload)
  /\ (forall q done w q' done' w',
         worker_step (q, done, w) (q', done', w') ->
         w_out w' = w_out w
         \/ exists c, w_pc w = WHolding c
                      /\ write_frame (w_out w) c = Ok (w_out w')).
Proof.
  split.
  - intros out chunk Hv Hi. exists (rle_encode (data chunk)).
    destruct (encode_shape (data chunk)) as (_ & _ & L).
    split; [now apply RLECompress_spec|].
    split; [now apply write_frame_spec|].
    split; [apply length_size_t_bytes|].
    split; [apply length_size_t_bytes|].
    split; [now apply le_value_size_t_bytes|].
    apply le_value_size_t_bytes. size_lia.
  - intros q done w q' done' w' H. inversion H; subst; cbn [w_out w_pc].
    + now left.
    + now left.
    + right. now exists c.
Qed.

Lemma frame_layout_witness :
  exists payload,
    RLECompress (data (mk_Chunk 7 ["a"; "a"; "b"]%byte)) = Ok payload
    /\ write_frame ["z"%byte] (mk_Chunk 7 ["a"; "a"; "b"]%byte)
       = Ok (["z"%byte] ++ size_t_bytes 7
                        ++ size_t_bytes (size payload) ++ payload)
    /\ length (size_t_bytes 7) = 8
    /\ length (size_t_bytes (size payload)) = 8
    /\ le_value (size_t_bytes 7) = 7%N
    /\ le_value (size_t_bytes (size payload)) = size payload.
Proof.
  apply (proj1 frame_layout ["z"%byte] (mk_Chunk 7 ["a"; "a"; "b"]%byte)).
  - vm_compute. discriminate.
  - reflexivity.
Defined.

(** C6: a header cut short is not always a clean end of the stream.  When
    a file of whole frames is followed by 9 to 15 more bytes, the loop reads
    a whole index, then stores the bytes that are left into [size], which
    started at 0, and goes on without looking at the state of the stream:
    it constructs a payload buffer of that many bytes.  When these bytes make
    a value above [address_space], [operator new] throws [std::bad_alloc],
    which nothing catches: [decompressFile] ends with that fault, not
    "without error".  (With at most 8 bytes left the length stays 0 and the
    loop does stop with the data of the frames: lemma
    [decompressFile_frames].) *)
Theorem cut_header_bad_alloc (cs : list Chunk) (tail : list byte) :
  Forall chunk_ok cs ->
  Forall (fun c => (index c < SizeT.modulus)%N) cs ->
  length tail < 16 ->
  (address_space < le_value (skipn 8 tail))%N ->
  decompressFile (frames cs ++ tail) = Fault BadAlloc.
Proof.
  intros Hc Hi Ht Ha.
  rewrite decompressFile_frames_cut_header by assumption.
  now rewrite (proj2 (N.ltb_lt _ _) Ha).
Qed.

(** The 15-byte file [01 00 00 00 00 00 00 00 ff ff ff ff ff ff ff]: index 1,
    then 7 bytes of a length; [size] is [2^56 - 1]. *)
Lemma cut_header_bad_alloc_witness :
  decompressFile
    [x01; x00; x00; x00; x00; x00; x00; x00;
     xff; xff; xff; xff; xff; xff; xff]%byte
  = Fault BadAlloc.
Proof.
  apply (cut_header_bad_alloc []
           [x01; x00; x00; x00; x00; x00; x00; x00;
            xff; xff; xff; xff; xff; xff; xff]%byte).
  - constructor.
  - constructor.
  - cbn [length]. lia.
  - vm_compute. reflexivity.
Defined.

(** * Further properties of the codec *)

Lemma rle_decode_length (p : list byte) :
  2 * length (rle_decode p) <= 255 * length p.
Proof.
  induction p as [p IH] using (induction_ltof1 _ (@length byte)).
  unfold ltof in IH. destruct p as [|v [|c rest]]; cbn [rle_decode length].
  - lia.
  - lia.
  - rewrite length_app, repeat_length.
    pose proof (Byte.to_N_bounded c). unfold uchar.
    specialize (IH rest ltac:(cbn [length]; lia)). lia.
Qed.

(** X1: [RLEDecompress] gives at most 255 bytes for each pair of its input:
    twice the output length is at most 255 times the input length. *)
Theorem RLEDecompress_expansion (p : vec) :
  vec_ok p ->
  exists out, RLEDecompress p = Ok out /\ 2 * length out <= 255 * length p.
Proof.
  intro Hv. exists (rle_decode p). split.
  - now apply RLEDecompress_spec, vec_ok_addressable.
  - apply rle_decode_length.
Qed.

Lemma RLEDecompress_expansion_witness :
  exists out,
    RLEDecompress ["a"; xff; "b"; xff; "c"]%byte = Ok out
    /\ 2 * length out <= 255 * length ["a"; xff; "b"; xff; "c"]%byte.
Proof.
  apply RLEDecompress_expansion. vm_compute. discriminate.
Defined.

(** X2: [RLECompress] cannot shrink its input by more than 255 to 2 (a pair
    stands for 255 bytes at most), and its output is empty for the empty
    input only. *)
Theorem RLECompress_ratio (input : vec) :
  vec_ok input ->
  exists out,
    RLECompress input = Ok out
    /\ 2 * length input <= 255 * length out
    /\ (out = [] <-> input = []).
Proof.
  intro Hv. exists (rle_encode input).
  split; [now apply RLECompress_spec|].
  pose proof (rle_decode_length (rle_encode input)) as L.
  rewrite decode_encode in L. split; [exact L|]. split.
  - intro E. rewrite E in L. cbn [length] in L.
    destruct input; [reflexivity|cbn [length] in L; lia].
  - now intros ->.
Qed.

Lemma RLECompress_ratio_witness :
  exists out,
    RLECompress (repeat "z"%byte 700) = Ok out
    /\ 2 * length (repeat "z"%byte 700) <= 255 * length out
    /\ (out = [] <-> repeat "z"%byte 700 = []).
Proof.
  apply RLECompress_ratio. vm_compute. discriminate.
Defined.

(** X3: decoding distributes over a concatenation cut at an even offset:
    payloads laid end to end decode to their outputs laid end to end. *)
Theorem RLEDecompress_app (a b : vec) :
  vec_ok (a ++ b) ->
  Nat.even (length a) = true ->
  exists x y,
    RLEDecompress a = Ok x /\ RLEDecompress b = Ok y
    /\ RLEDecompress (a ++ b) = Ok (x ++ y).
Proof.
  intros Hv Ev. unfold vec_ok, size in Hv. rewrite length_app in Hv.
  exists (rle_decode a), (rle_decode b). repeat split.
  - apply RLEDecompress_spec, vec_ok_addressable. unfold vec_ok, size. lia.
  - apply RLEDecompress_spec, vec_ok_addressable. unfold vec_ok, size. lia.
  - rewrite RLEDecompress_spec.
    + now rewrite rle_decode_app_even.
    + apply vec_ok_addressable. unfold vec_ok, size.
      rewrite length_app. lia.
Qed.

Lemma RLEDecompress_app_witness :
  exists x y,
    RLEDecompress ["a"; x02]%byte = Ok x
    /\ RLEDecompress ["b"; x03; "c"]%byte = Ok y
    /\ RLEDecompress (["a"; x02] ++ ["b"; x03; "c"])%byte = Ok (x ++ y).
Proof.
  apply RLEDecompress_app.
  - vm_compute. discriminate.
  - reflexivity.
Defined.

Lemma encode_run_head (rest : list byte) :
  forall current count,
    exists c tl, encode_run current count rest = current :: c :: tl.
Proof.
  induction rest as [|b rest IH]; intros current count.
  - now exists (char_of_size_t count), [].
  - cbn [encode_run].
    destruct (Byte.eqb b current && (count <? 255)%N); [apply IH|].
    now exists (char_of_size_t count), (encode_run b 1 rest).
Qed.

Lemma adjacent_runs_maximal_cons (v c v' : byte) (r : list byte) :
  adjacent_runs_maximal (v :: c :: v' :: r)
  = (negb (Byte.eqb v v') || (uchar c =? 255)%N)
    && adjacent_runs_maximal (v' :: r).
Proof. reflexivity. Qed.

Lemma encode_run_maximal (rest : list byte) :
  forall current count,
    (1 <= count <= 255)%N ->
    adjacent_runs_maximal (encode_run current count rest) = true.
Proof.
  induction rest as [|b rest IH]; intros current count Hc.
  - reflexivity.
  - cbn [encode_run].
    destruct (Byte.eqb b current) eqn:Eb; cbn [andb].
    + destruct (N.ltb_spec count 255) as [Hlt|Hge].
      * apply IH. lia.
      * destruct (encode_run_head rest b 1%N) as (c & tl & E).
        pose proof (IH b 1%N ltac:(lia)) as M. rewrite E in *.
        rewrite adjacent_runs_maximal_cons, M, uchar_char by lia.
        replace count with 255%N by lia.
        now rewrite orb_true_r.
    + destruct (encode_run_head rest b 1%N) as (c & tl & E).
      pose proof (IH b 1%N ltac:(lia)) as M. rewrite E in *.
      rewrite adjacent_runs_maximal_cons, M.
      assert (Ec : Byte.eqb current b = false).
      { destruct (Byte.eqb current b) eqn:E'; [|reflexivity].
        apply Byte.byte_dec_bl in E'. subst b.
        now rewrite (Byte.byte_dec_lb eq_refl) in Eb. }
      now rewrite Ec.
Qed.

(** X4: in the output of [RLECompress] the runs are maximal: two pairs that
    follow each other never carry the same value, unless the first has the
    full count 255. *)
Theorem RLECompress_runs_maximal (input : vec) :
  vec_ok input ->
  exists out,
    RLECompress input = Ok out /\ adjacent_runs_maximal out = true.
Proof.
  intro Hv. exists (rle_encode input).
  split; [now apply RLECompress_spec|].
  destruct input as [|b rest]; [reflexivity|].
  apply encode_run_maximal. lia.
Qed.

Lemma RLECompress_runs_maximal_witness :
  exists out,
    RLECompress (repeat "a"%byte 600 ++ ["b"; "b"; "a"]%byte) = Ok out
    /\ adjacent_runs_maximal out = true.
Proof.
  apply RLECompress_runs_maximal. vm_compute. discriminate.
Defined.

(** X5: encoding distributes over a concatenation cut between two runs:
    when the last byte of [a] differs from the first byte of [b], the
    encoding of [a ++ b] is the encoding of [a] followed by that of [b]. *)
Theorem RLECompress_app (a b : vec) :
  vec_ok (a ++ b) ->
  (a <> [] -> hd_error b <> Some (last a x00)) ->
  exists x y,
    RLECompress a = Ok x /\ RLECompress b = Ok y
    /\ RLECompress (a ++ b) = Ok (x ++ y).
Proof.
  intros Hv Hcut. pose proof Hv as Hl. unfold vec_ok, size in Hl.
  rewrite length_app in Hl.
  exists (rle_encode a), (rle_encode b). repeat split.
  - apply RLECompress_spec. unfold vec_ok, size. lia.
  - apply RLECompress_spec. unfold vec_ok, size. lia.
  - rewrite RLECompress_spec by exact Hv.
    now rewrite (encode_app a b x00).
Qed.

Lemma RLECompress_app_witness :
  exists x y,
    RLECompress ["a"; "a"; "b"]%byte = Ok x
    /\ RLECompress ["c"; "c"]%byte = Ok y
    /\ RLECompress (["a"; "a"; "b"] ++ ["c"; "c"])%byte = Ok (x ++ y).
Proof.
  apply RLECompress_app.
  - vm_compute. discriminate.
  - intros _. discriminate.
Defined.

(** * Further properties of [decompressFile] *)

Lemma record_ok_sizes (r : N * list byte) :
  record_ok r ->
  (fst r < SizeT.modulus)%N
  /\ (size (snd r) < SizeT.modulus)%N
  /\ (size (snd r) <= max_size)%N
  /\ addressable (snd r).
Proof.
  intros (Hi & Hv). pose proof (vec_ok_addressable _ Hv) as Ha.
  repeat split; auto. size_lia.
Qed.

(** One turn of the loop on a stream that starts with a whole record. *)
Lemma decompress_file_loop_record (fuel : nat) (r : N * list byte)
    (more out : list byte) :
  record_ok r ->
  decompress_file_loop (S fuel)
    (mk_istream (record_bytes r ++ more) false false) out
  = decompress_file_loop fuel (mk_istream more false false)
      (out ++ rle_decode (snd r)).
Proof.
  intro Hr. destruct (record_ok_sizes r Hr) as (Hi & Hs & Hm & Ha).
  destruct r as [idx payload]. cbn [fst snd] in *.
  cbn [decompress_file_loop].
  assert (P : peek (mk_istream (record_bytes (idx, payload) ++ more)
                      false false)
              = (Some (char_of_size_t idx),
                 mk_istream (record_bytes (idx, payload) ++ more)
                   false false))
    by reflexivity.
  rewrite P. unfold record_bytes. cbn [fst snd]. rewrite <- !app_assoc.
  rewrite read_size_t_exact by exact Hi.
  rewrite read_size_t_exact by exact Hs.
  destruct (N.ltb_spec max_size (size payload)); [lia|].
  rewrite allocates_present
    by (cbn [rest]; unfold size; rewrite length_app; lia).
  rewrite read_exact by (unfold size; lia).
  unfold overwrite. rewrite skipn_repeat.
  replace (N.to_nat (size payload) - length payload) with 0
    by (unfold size; lia).
  cbn [repeat]. rewrite app_nil_r.
  rewrite RLEDecompress_spec by exact Ha.
  cbn [bind]. now rewrite write_all.
Qed.

Lemma decompress_file_loop_records (recs : list (N * list byte)) :
  Forall record_ok recs ->
  forall fuel tail out,
    decompress_file_loop (length recs + fuel)
      (mk_istream (flat_map record_bytes recs ++ tail) false false) out
    = decompress_file_loop fuel (mk_istream tail false false)
        (out ++ flat_map (fun r => rle_decode (snd r)) recs).
Proof.
  induction recs as [|r recs IH]; intros Hr fuel tail out.
  - cbn. now rewrite app_nil_r.
  - inversion Hr; subst.
    cbn [flat_map length Nat.add]. rewrite <- app_assoc.
    rewrite decompress_file_loop_record by assumption.
    rewrite IH by assumption. now rewrite <- app_assoc.
Qed.

Lemma length_record_bytes (r : N * list byte) :
  length (record_bytes r) = 16 + length (snd r).
Proof.
  unfold record_bytes. rewrite !length_app, !length_size_t_bytes. lia.
Qed.

Lemma length_records (recs : list (N * list byte)) :
  16 * length recs <= length (flat_map record_bytes recs).
Proof.
  induction recs as [|r recs IH]; [cbn; lia|].
  cbn [flat_map length]. rewrite length_app, length_record_bytes. lia.
Qed.

Lemma decoded_payloads (recs : list (N * list byte)) :
  Forall record_ok recs ->
  Forall2 (fun r o => RLEDecompress (snd r) = Ok o) recs
    (map (fun r => rle_decode (snd r)) recs).
Proof.
  induction 1 as [|r recs Hr _ IH]; cbn [map]; constructor; auto.
  apply RLEDecompress_spec. now destruct (record_ok_sizes r Hr) as (_&_&_&?).
Qed.

(** X6: a file made of whole records, whatever their payloads and index
    fields, decompresses to the decoded payloads in file order; the index
    fields play no part. *)
Theorem decompressFile_records (recs : list (N * list byte)) :
  Forall record_ok recs ->
  exists outs,
    Forall2 (fun r o => RLEDecompress (snd r) = Ok o) recs outs
    /\ decompressFile (flat_map record_bytes recs) = Ok (concat outs).
Proof.
  intro Hr. exists (map (fun r => rle_decode (snd r)) recs).
  split; [now apply decoded_payloads|].
  rewrite <- flat_map_concat_map. unfold decompressFile, open_in.
  pose proof (length_records recs) as L.
  rewrite <- (app_nil_r (flat_map record_bytes recs)) at 2.
  replace (S (length (flat_map record_bytes recs)))
    with (length recs
          + S (length (flat_map record_bytes recs) - length recs)) by lia.
  rewrite decompress_file_loop_records by assumption.
  apply decompress_file_loop_tail; cbn [rest length]; lia.
Qed.

Lemma decompressFile_records_witness :
  exists outs,
    Forall2 (fun r o => RLEDecompress (snd r) = Ok o)
      [(9%N, ["b"; x02]%byte); (3%N, ["a"; x01; "c"]%byte)] outs
    /\ decompressFile
         (flat_map record_bytes
            [(9%N, ["b"; x02]%byte); (3%N, ["a"; x01; "c"]%byte)])
       = Ok (concat outs).
Proof.
  apply decompressFile_records.
  repeat constructor; vm_compute; discriminate.
Defined.

Lemma rle_decode_pad (p : list byte) (k : nat) :
  rle_decode (p ++ repeat x00 k) = rle_decode p.
Proof.
  induction p as [p IH] using (induction_ltof1 _ (@length byte)).
  unfold ltof in IH. destruct p as [|v [|c rest]].
  - apply rle_decode_zeros.
  - destruct k as [|k]; [reflexivity|].
    cbn [app repeat rle_decode]. change (uchar x00) with 0%N.
    cbn [N.to_nat repeat app]. apply rle_decode_zeros.
  - cbn [app rle_decode]. f_equal. apply IH. cbn [length]. lia.
Qed.

(** The last turn of the loop when the payload is cut short: the header is
    whole, the stream ends before [len] payload bytes. *)
Lemma decompress_file_loop_cut (fuel : nat) (idx len : N)
    (p out : list byte) :
  (idx < SizeT.modulus)%N -> (size p < len)%N ->
  (len <= 2 * CHUNK_SIZE)%N ->
  decompress_file_loop (S (S fuel))
    (mk_istream (size_t_bytes idx ++ size_t_bytes len ++ p) false false) out
  = Ok (out ++ rle_decode p).
Proof.
  intros Hi Hp Hl. rewrite chunk_size_value in Hl.
  cbn [decompress_file_loop].
  assert (P : peek (mk_istream (size_t_bytes idx ++ size_t_bytes len ++ p)
                      false false)
              = (Some (char_of_size_t idx),
                 mk_istream (size_t_bytes idx ++ size_t_bytes len ++ p)
                   false false))
    by reflexivity.
  rewrite P.
  rewrite read_size_t_exact by exact Hi.
  rewrite read_size_t_exact by size_lia.
  destruct (N.ltb_spec max_size len); [size_lia|].
  rewrite allocates_small by (rewrite address_space_value; lia).
  rewrite read_good by reflexivity. cbn [rest].
  rewrite firstn_all2 by (unfold size in Hp; lia).
  rewrite (proj2 (N.ltb_lt _ _) Hp).
  unfold overwrite. rewrite skipn_repeat, RLEDecompress_spec.
  - cbn [bind]. rewrite rle_decode_pad, write_all.
    set (s := mk_istream _ true true).
    destruct (peek s) as [c s'] eqn:Ep.
    pose proof (peek_not_good s eq_refl) as (Hc & _).
    rewrite Ep in Hc. cbn [fst] in Hc. now subst c.
  - apply vec_ok_addressable. unfold vec_ok, size in *.
    rewrite length_app, repeat_length. lia.
Qed.

(** X7: when the last record declares more payload bytes than the file
    holds, and no more than the largest payload [compressFile] writes
    ([2 * CHUNK_SIZE], 2 MiB), [decompressFile] raises no fault: it decodes
    the payload bytes that are there and ends, as if the record were
    whole. *)
Theorem decompressFile_cut_payload (recs : list (N * list byte))
    (idx len : N) (p : list byte) :
  Forall record_ok recs ->
  (idx < SizeT.modulus)%N -> (size p < len)%N ->
  (len <= 2 * CHUNK_SIZE)%N ->
  exists outs o,
    Forall2 (fun r o => RLEDecompress (snd r) = Ok o) recs outs
    /\ RLEDecompress p = Ok o
    /\ decompressFile
         (flat_map record_bytes recs
          ++ size_t_bytes idx ++ size_t_bytes len ++ p)
       = Ok (concat outs ++ o).
Proof.
  intros Hr Hi Hp Hl.
  exists (map (fun r => rle_decode (snd r)) recs), (rle_decode p).
  split; [now apply decoded_payloads|]. split.
  - apply RLEDecompress_spec, vec_ok_addressable.
    rewrite chunk_size_value in Hl. size_lia.
  - rewrite <- flat_map_concat_map. unfold decompressFile, open_in.
    pose proof (length_records recs) as L.
    set (tail := size_t_bytes idx ++ size_t_bytes len ++ p).
    assert (Lt : 16 <= length tail).
    { unfold tail. rewrite !length_app, !length_size_t_bytes. lia. }
    replace (S (length (flat_map record_bytes recs ++ tail)))
      with (length recs
            + S (S (length (flat_map record_bytes recs ++ tail)
                    - length recs - 1)))
      by (rewrite length_app; lia).
    rewrite decompress_file_loop_records by assumption.
    now apply decompress_file_loop_cut.
Qed.

Lemma decompressFile_cut_payload_witness :
  exists outs o,
    Forall2 (fun r o => RLEDecompress (snd r) = Ok o)
      [(0%N, ["b"; x02]%byte)] outs
    /\ RLEDecompress ["A"; x05; "B"; x01]%byte = Ok o
    /\ decompressFile
         (flat_map record_bytes [(0%N, ["b"; x02]%byte)]
          ++ size_t_bytes 1 ++ size_t_bytes 10
          ++ ["A"; x05; "B"; x01]%byte)
       = Ok (concat outs ++ o).
Proof.
  apply decompressFile_cut_payload.
  - repeat constructor; vm_compute; discriminate.
  - reflexivity.
  - reflexivity.
  - rewrite chunk_size_value. lia.
Defined.

(** X8: a record whose length field is above [max_size] stops
    [decompressFile] with [std::length_error], whatever follows the header
    and whatever whole records came before. *)
Theorem decompressFile_length_error (recs : list (N * list byte))
    (idx len : N) (more : list byte) :
  Forall record_ok recs ->
  (idx < SizeT.modulus)%N -> (max_size < len)%N ->
  (len < SizeT.modulus)%N ->
  decompressFile
    (flat_map record_bytes recs
     ++ size_t_bytes idx ++ size_t_bytes len ++ more)
  = Fault LengthError.
Proof.
  intros Hr Hi Hl Hm. unfold decompressFile, open_in.
  pose proof (length_records recs) as L.
  set (tail := size_t_bytes idx ++ size_t_bytes len ++ more).
  replace (S (length (flat_map record_bytes recs ++ tail)))
    with (length recs
          + S (length (flat_map record_bytes recs ++ tail) - length recs))
    by (rewrite length_app; lia).
  rewrite decompress_file_loop_records by assumption.
  cbn [decompress_file_loop].
  assert (P : peek (mk_istream tail false false)
              = (Some (char_of_size_t idx), mk_istream tail false false))
    by reflexivity.
  rewrite P. unfold tail.
  rewrite read_size_t_exact by exact Hi.
  rewrite read_size_t_exact by exact Hm.
  now rewrite (proj2 (N.ltb_lt _ _) Hl).
Qed.

Lemma decompressFile_length_error_witness :
  decompressFile
    (flat_map record_bytes [(0%N, ["b"; x02]%byte)]
     ++ size_t_bytes 1 ++ size_t_bytes (2 ^ 63) ++ ["A"; x05]%byte)
  = Fault LengthError.
Proof.
  apply decompressFile_length_error.
  - repeat constructor; vm_compute; discriminate.
  - reflexivity.
  - reflexivity.
  - reflexivity.
Defined.

(** X17: a record whose length field is within [max_size], above
    [address_space] and above the number of bytes that follow its header
    stops [decompressFile] with [std::bad_alloc], whatever whole records
    came before: the payload buffer is constructed before any payload byte
    is read. *)
Theorem decompressFile_bad_alloc (recs : list (N * list byte))
    (idx len : N) (more : list byte) :
  Forall record_ok recs ->
  (idx < SizeT.modulus)%N -> (len <= max_size)%N ->
  (address_space < len)%N -> (size more < len)%N ->
  decompressFile
    (flat_map record_bytes recs
     ++ size_t_bytes idx ++ size_t_bytes len ++ more)
  = Fault BadAlloc.
Proof.
  intros Hr Hi Hl Ha Hm. unfold decompressFile, open_in.
  pose proof (length_records recs) as L.
  set (tail := size_t_bytes idx ++ size_t_bytes len ++ more).
  replace (S (length (flat_map record_bytes recs ++ tail)))
    with (length recs
          + S (length (flat_map record_bytes recs ++ tail) - length recs))
    by (rewrite length_app; lia).
  rewrite decompress_file_loop_records by assumption.
  cbn [decompress_file_loop].
  assert (P : peek (mk_istream tail false false)
              = (Some (char_of_size_t idx), mk_istream tail false false))
    by reflexivity.
  rewrite P. unfold tail.
  rewrite read_size_t_exact by exact Hi.
  rewrite read_size_t_exact by size_lia.
  rewrite (proj2 (N.ltb_ge _ _) Hl).
  unfold allocates. cbn [rest].
  rewrite (proj2 (N.leb_gt _ _) Hm), (proj2 (N.leb_gt _ _) Ha).
  reflexivity.
Qed.

Lemma decompressFile_bad_alloc_witness :
  decompressFile
    (flat_map record_bytes [(0%N, ["b"; x02]%byte)]
     ++ size_t_bytes 1 ++ size_t_bytes (2 ^ 63 - 1) ++ ["A"; x05]%byte)
  = Fault BadAlloc.
Proof.
  apply decompressFile_bad_alloc.
  - repeat constructor; vm_compute; discriminate.
  - reflexivity.
  - vm_compute. discriminate.
  - reflexivity.
  - reflexivity.
Defined.

Lemma decompress_file_loop_result (fuel : nat) :
  forall s out,
    length (rest s) < fuel \/ (good s = false /\ 0 < fuel) ->
    (exists o, decompress_file_loop fuel s out = Ok o)
    \/ decompress_file_loop fuel s out = Fault LengthError
    \/ decompress_file_loop fuel s out = Fault BadAlloc.
Proof.
  induction fuel as [|fuel IH]; intros s out H; [lia|].
  cbn [decompress_file_loop].
  destruct (peek s) as [[b|] s0] eqn:P; [|left; now exists out].
  assert (Hs : s0 = s /\ good s = true /\ 0 < length (rest s)).
  { unfold peek in P. destruct (good s); [|discriminate].
    destruct (rest s); [discriminate|]. injection P as _ <-.
    cbn [length]. repeat split. lia. }
  destruct Hs as (-> & G & Hpos).
  destruct H as [H|(H & _)]; [|congruence].
  destruct (read_size_t_shrinks s) as (L1 & G1).
  destruct (read_size_t s) as [index_ in1]. cbn [snd] in L1, G1.
  destruct (read_size_t_shrinks in1) as (L2 & G2).
  destruct (read_size_t in1) as [size_ in2]. cbn [snd] in L2, G2.
  destruct (N.ltb_spec max_size size_) as [|Hm]; [now right; left|].
  destruct (allocates (size (rest in2)) size_); [|now right; right].
  destruct (read_shrinks in2 size_) as (Lg & L3 & G3).
  destruct (read in2 size_) as [got in3]. cbn [fst snd] in Lg, L3, G3.
  rewrite RLEDecompress_spec.
  - cbn [bind]. apply IH.
    destruct (good in3) eqn:G'; [left|right; split; [reflexivity|lia]].
    destruct (G3 eq_refl) as (G2' & _). destruct (G2 G2') as (G1' & _).
    destruct (G1 G1') as (_ & E). lia.
  - apply vec_ok_addressable. unfold vec_ok, size.
    rewrite length_overwrite by exact Lg. lia.
Qed.

(** X9: on every file, well formed or not, [decompressFile] ends in one of
    three ways: with an output, with [std::length_error] from a length field
    above [max_size], or with [std::bad_alloc] from a length field for which
    the payload buffer is not obtained.  It never reads a payload outside
    its buffer and its loop takes at most one turn per byte of the file,
    plus one. *)
Theorem decompressFile_ends (file : list byte) :
  (exists out, decompressFile file = Ok out)
  \/ decompressFile file = Fault LengthError
  \/ decompressFile file = Fault BadAlloc.
Proof.
  apply decompress_file_loop_result. left. cbn [open_in rest]. lia.
Qed.

(** * Further properties of the pipeline, with any number of workers *)

Lemma frames_nil : frames [] = [].
Proof. reflexivity. Qed.

Lemma Forall2_middle {A B : Type} (R : A -> B -> Prop) (l1 l2 : list A)
    (x : A) (l' : list B) :
  Forall2 R (l1 ++ x :: l2) l' ->
  exists l1' y l2',
    l' = l1' ++ y :: l2' /\ Forall2 R l1 l1' /\ R x y /\ Forall2 R l2 l2'.
Proof.
  intro H. apply Forall2_app_inv_l in H as (l1' & r & H1 & H2 & ->).
  inversion H2 as [|? y ? l2' Hxy H3]; subst.
  now exists l1', y, l2'.
Qed.

Lemma Forall2_rebuild {A B : Type} (R : A -> B -> Prop) (l1 l2 : list A)
    (x : A) (l1' l2' : list B) (y : B) :
  Forall2 R l1 l1' -> R x y -> Forall2 R l2 l2' ->
  Forall2 R (l1 ++ x :: l2) (l1' ++ y :: l2').
Proof. intros H1 Hxy H2. apply Forall2_app; [exact H1|now constructor]. Qed.

Section Accounting.

Variable file : list byte.
Variable threadCount : nat.

Lemma accounting_init : accounting file (init file threadCount).
Proof.
  exists [], [], (repeat [] threadCount).
  cbn [init p_main p_in p_index workers workQueue app].
  repeat split.
  - induction threadCount as [|n IH]; cbn [repeat]; constructor; auto.
  - induction threadCount as [|n IH]; cbn [repeat concat app]; auto.
Qed.

Lemma accounting_step (p p' : pipeline) :
  invariant file threadCount p -> accounting file p -> step p p' ->
  accounting file p'.
Proof.
  intros (_ & _ & _ & _ & _ & _ & Hh & _ & _)
         (pushed & popped & taken & Hrem & Hq & Ht & Hp) Hstep.
  unfold accounting.
  destruct Hstep as [in_ idx q done ws c in' idx' E
                    | in_ idx q done ws E
                    | in_ idx q done ws
                    | in_ idx m q done ws1 w ws2 q' done' w' Hw];
    cbn [p_main p_in p_index doneReading workers workQueue] in *.
  - exists (pushed ++ [c]), popped, taken. repeat split; auto.
    + rewrite Hrem, (remaining_Some _ _ _ _ _ E), <- app_assoc. reflexivity.
    + now rewrite Hq, <- app_assoc.
  - exists pushed, popped, taken. repeat split; auto.
    now rewrite Hrem, (remaining_None _ _ E).
  - exists pushed, popped, taken. repeat split; auto.
  - apply Forall2_middle in Ht as (t1 & tw & t2 & -> & Ht1 & Hw0 & Ht2).
    apply Forall_app in Hh as (_ & Hh).
    apply Forall_cons_iff in Hh as (Hc & _).
    inversion Hw; subst; clear Hw; unfold held in *; cbn [w_pc w_out] in *.
    + (* a chunk is popped *)
      exists (popped ++ c :: q'), (popped ++ [c]), (t1 ++ (tw ++ [c]) :: t2).
      repeat split; auto.
      * now rewrite <- app_assoc.
      * apply Forall2_rebuild; auto. cbn [w_pc w_out].
        rewrite frames_nil, app_nil_r in Hw0.
        now rewrite frames_app, Hw0.
      * rewrite concat_app in *. cbn [concat] in *.
        rewrite <- !app_assoc. cbn [app].
        rewrite app_assoc.
        eapply Permutation_trans;
          [apply Permutation_sym, Permutation_middle|].
        eapply Permutation_trans; [|apply Permutation_cons_append].
        apply perm_skip. now rewrite <- app_assoc.
    + (* the worker leaves *)
      exists popped, popped, (t1 ++ tw :: t2).
      repeat split; auto.
      * now rewrite app_nil_r in Hrem.
      * now rewrite app_nil_r.
      * apply Forall2_rebuild; auto.
    + (* a frame is written *)
      inversion Hc; subst.
      match goal with
      | H : write_frame _ _ = Ok _ |- _ =>
          rewrite write_frame_spec in H by now apply chunk_ok_vec_ok
      end.
      match goal with H : Ok _ = Ok _ |- _ => injection H as <- end.
      exists (popped ++ q'), popped, (t1 ++ tw :: t2).
      repeat split; auto.
      apply Forall2_rebuild; auto. cbn [w_pc w_out].
      rewrite frames_nil, app_nil_r. now rewrite <- Hw0, frames_one.
Qed.

Lemma accounting_steps (p : pipeline) :
  steps (init file threadCount) p -> accounting file p.
Proof.
  intro H. remember (init file threadCount) as p0 eqn:E.
  induction H as [p|p q r H IH Hs].
  - subst p. apply accounting_init.
  - eapply accounting_step; [|apply IH, E|exact Hs].
    subst p. now apply invariant_steps.
Qed.

End Accounting.

Lemma write_frames_spec (cs : list Chunk) :
  Forall chunk_ok cs ->
  forall out, write_frames out cs = Ok (out ++ frames cs).
Proof.
  induction 1 as [|c cs Hc _ IH]; intro out; cbn [write_frames].
  - now rewrite frames_nil, app_nil_r.
  - rewrite write_frame_spec by now apply chunk_ok_vec_ok.
    cbn [bind]. rewrite IH, <- app_assoc. reflexivity.
Qed.

Lemma Forall2_strengthen {A B : Type} (P : A -> Prop) (Q : B -> Prop)
    (R : A -> B -> Prop) (l : list A) (l' : list B) :
  Forall P l -> Forall Q l' -> Forall2 R l l' ->
  Forall2 (fun x y => P x /\ Q y /\ R x y) l l'.
Proof.
  intros HP HQ H. induction H as [|x y l l' HR H IH]; [constructor|].
  inversion HP; subst. inversion HQ; subst. constructor; auto.
Qed.

Lemma length_frames_bounds (cs : list Chunk) :
  16 * length cs <= length (frames cs)
  /\ length (frames cs) <= 16 * length cs + 2 * length (flat_map data cs).
Proof.
  induction cs as [|c cs (IH1 & IH2)]; [cbn; lia|].
  cbn [frames flat_map length]. fold (frames cs).
  rewrite !length_app. unfold frame_bytes.
  rewrite !length_app, !length_size_t_bytes.
  destruct (encode_shape (data c)) as (_ & _ & L). lia.
Qed.

Lemma bytes_written_taken (ws : list worker) (taken : list (list Chunk)) :
  Forall2 (fun w t => w_out w = frames t) ws taken ->
  list_sum (map (fun w => length (w_out w)) ws)
  = length (frames (concat taken)).
Proof.
  induction 1 as [|w t ws taken E _ IH]; [reflexivity|].
  cbn [map concat].
  change (list_sum (?a :: ?l)) with (a + list_sum l).
  now rewrite frames_app, length_app, IH, E.
Qed.

(** What a finished run with at least one worker has done. *)
Lemma finished_accounting (file : list byte) (threadCount : nat)
    (p : pipeline) :
  1 <= threadCount ->
  steps (init file threadCount) p -> finished p ->
  exists taken,
    Forall2 (fun w t => w_out w = frames t) (workers p) taken
    /\ Permutation (concat taken) (remaining (open_in file) 0).
Proof.
  intros Hn Hs (Hm & Hw).
  destruct (invariant_steps _ _ _ Hs)
    as (_ & _ & _ & _ & Hlen & _ & _ & Hex & _).
  destruct (accounting_steps _ _ _ Hs)
    as (pushed & popped & taken & Hrem & Hq & Ht & Hp).
  rewrite Hm, app_nil_r in Hrem.
  assert (Eq : workQueue p = []).
  { destruct (workers p) as [|w ws]; [cbn [length] in Hlen; lia|].
    inversion Hw; subst. inversion Hex; subst. now apply H3. }
  rewrite Eq, app_nil_r in Hq. subst popped. rewrite <- Hrem in Hp.
  exists taken. split; [|exact Hp].
  eapply Forall2_impl; [|exact (Forall2_strengthen _ (fun _ => True) _ _ _
                                 Hw ltac:(now apply Forall_forall) Ht)].
  cbn beta. intros w t (Hpc & _ & E). unfold held in E.
  rewrite Hpc, frames_nil, app_nil_r in E. exact E.
Qed.

(** X10: for every number of workers and every schedule, [compressFile]
    returns: a state that has not finished can always move (no deadlock: a
    worker waits only while the queue is empty and [doneReading] is unset),
    every transition lowers [measure], so every run is finite, and a finished
    state is reached. *)
Theorem compressFile_returns (file : list byte) (threadCount : nat) :
  (exists p, steps (init file threadCount) p /\ finished p)
  /\ (forall p, steps (init file threadCount) p ->
        finished p \/ exists p', step p p')
  /\ (forall p p', steps (init file threadCount) p -> step p p' ->
        measure p' < measure p).
Proof.
  split; [|split].
  - apply (run_to_finish file threadCount
             (measure (init file threadCount))); [lia|].
    apply invariant_init.
  - intros p Hs. apply (progress file threadCount).
    now apply invariant_steps.
  - intros p p' _ Hs. now apply step_measure.
Qed.

Lemma compressFile_returns_witness :
  exists p, steps (init ["a"; "b"]%byte 3) p /\ finished p.
Proof.
  exact (proj1 (compressFile_returns ["a"; "b"]%byte 3)).
Defined.

(** X11: with one worker or more, when [compressFile] has returned every
    chunk of the input has been written exactly once: each worker's stream
    is the frames of the chunks it took, written whole and in the order it
    took them, it decompresses on its own to the data of those chunks, and
    the chunks taken by the workers are together the chunks of the input. *)
Theorem every_chunk_written_once (file : list byte) (threadCount : nat)
    (p : pipeline) :
  1 <= threadCount ->
  steps (init file threadCount) p -> finished p ->
  exists cs taken,
    chunkSource file = Ok cs
    /\ Permutation (concat taken) cs
    /\ Forall2 (fun w t =>
                  w_pc w = WExited
                  /\ write_frames [] t = Ok (w_out w)
                  /\ decompressFile (w_out w) = Ok (flat_map data t))
         (workers p) taken.
Proof.
  intros Hn Hs Hf.
  destruct (finished_accounting _ _ _ Hn Hs Hf) as (taken & Ht & Hp).
  destruct (chunks_of_file file) as (_ & A & I). cbn zeta in A, I.
  exists (remaining (open_in file) 0), taken.
  split; [apply chunkSource_remaining|]. split; [exact Hp|].
  assert (HQ : Forall (fun t => Forall chunk_ok t
                         /\ Forall (fun c => (index c < SizeT.modulus)%N) t)
                 taken).
  { assert (Hin : forall t c, In t taken -> In c t ->
                      In c (remaining (open_in file) 0)).
    { intros t c Ht' Hc. apply (Permutation_in c Hp).
      apply in_concat. exists t. split; assumption. }
    rewrite Forall_forall in A, I.
    apply Forall_forall. intros t Ht'.
    split; apply Forall_forall; intros c Hc.
    - exact (A c (Hin t c Ht' Hc)).
    - exact (I c (Hin t c Ht' Hc)). }
  destruct Hf as (_ & Hw).
  eapply Forall2_impl; [|exact (Forall2_strengthen _ _ _ _ _ Hw HQ Ht)].
  cbn beta. intros w t (Hpc & (Hc & Hi) & E).
  split; [exact Hpc|]. split.
  - rewrite write_frames_spec by exact Hc. now rewrite E.
  - rewrite E, <- (app_nil_r (frames t)).
    apply decompressFile_frames; auto. cbn [length]. lia.
Qed.

Lemma every_chunk_written_once_witness :
  exists p cs taken,
    steps (init ["a"; "a"; "b"]%byte 2) p
    /\ finished p
    /\ chunkSource ["a"; "a"; "b"]%byte = Ok cs
    /\ Permutation (concat taken) cs
    /\ Forall2 (fun w t =>
                  w_pc w = WExited
                  /\ write_frames [] t = Ok (w_out w)
                  /\ decompressFile (w_out w) = Ok (flat_map data t))
         (workers p) taken.
Proof.
  destruct (run_to_finish ["a"; "a"; "b"]%byte 2
              (measure (init ["a"; "a"; "b"]%byte 2))
              (init ["a"; "a"; "b"]%byte 2) (le_n _)
              (invariant_init _ _)) as (p & Hs & Hf).
  destruct (every_chunk_written_once ["a"; "a"; "b"]%byte 2 p
              ltac:(lia) Hs Hf) as (cs & taken & H).
  exists p, cs, taken. auto.
Defined.

(** X12: with no worker (a thread count of 0), [compressFile] still reads
    the whole input and returns, but nothing is written: every chunk is left
    in the queue. *)
Theorem no_worker_no_output (file : list byte) (p : pipeline) :
  steps (init file 0) p -> finished p ->
  workers p = []
  /\ exists cs, chunkSource file = Ok cs /\ workQueue p = cs.
Proof.
  intros Hs (Hm & _).
  destruct (invariant_steps _ _ _ Hs) as (_ & _ & _ & _ & Hlen & _).
  destruct (accounting_steps _ _ _ Hs)
    as (pushed & popped & taken & Hrem & Hq & Ht & Hp).
  destruct (workers p) as [|w ws]; [|discriminate Hlen].
  split; [reflexivity|]. inversion Ht; subst taken.
  cbn [concat] in Hp. apply Permutation_nil in Hp. subst popped.
  rewrite Hm, app_nil_r in Hrem. cbn [app] in Hq.
  exists pushed. split; [rewrite <- Hrem; apply chunkSource_remaining|].
  now symmetry.
Qed.

Lemma no_worker_no_output_witness :
  exists p,
    steps (init ["a"; "b"]%byte 0) p /\ finished p
    /\ workers p = []
    /\ exists cs, chunkSource ["a"; "b"]%byte = Ok cs /\ workQueue p = cs.
Proof.
  destruct (run_to_finish ["a"; "b"]%byte 0
              (measure (init ["a"; "b"]%byte 0))
              (init ["a"; "b"]%byte 0) (le_n _)
              (invariant_init _ _)) as (p & Hs & Hf).
  destruct (no_worker_no_output ["a"; "b"]%byte p Hs Hf) as (Hw & Hc).
  exists p. auto.
Defined.

(** X13: with one worker or more, the bytes written by all the workers
    together are 16 bytes of header for each chunk plus the payloads, which
    are at most twice the input: the compressed data is never more than
    twice the input plus 16 bytes for each chunk. *)
Theorem compressed_size (file : list byte) (threadCount : nat)
    (p : pipeline) :
  1 <= threadCount ->
  steps (init file threadCount) p -> finished p ->
  exists cs,
    chunkSource file = Ok cs
    /\ 16 * length cs <= bytes_written p
    /\ bytes_written p <= 16 * length cs + 2 * length file.
Proof.
  intros Hn Hs Hf.
  destruct (finished_accounting _ _ _ Hn Hs Hf) as (taken & Ht & Hp).
  destruct (chunks_of_file file) as (F & _). cbn zeta in F.
  exists (remaining (open_in file) 0).
  split; [apply chunkSource_remaining|].
  unfold bytes_written. rewrite (bytes_written_taken _ _ Ht).
  assert (E : length (frames (concat taken))
              = length (frames (remaining (open_in file) 0))).
  { apply Permutation_length. unfold frames.
    now apply Permutation_flat_map. }
  destruct (length_frames_bounds (remaining (open_in file) 0)) as (B1 & B2).
  rewrite F in B2. lia.
Qed.

Lemma compressed_size_witness :
  exists p cs,
    steps (init ["a"; "a"; "b"]%byte 2) p /\ finished p
    /\ chunkSource ["a"; "a"; "b"]%byte = Ok cs
    /\ 16 * length cs <= bytes_written p
    /\ bytes_written p <= 16 * length cs + 2 * length ["a"; "a"; "b"]%byte.
Proof.
  destruct (run_to_finish ["a"; "a"; "b"]%byte 2
              (measure (init ["a"; "a"; "b"]%byte 2))
              (init ["a"; "a"; "b"]%byte 2) (le_n _)
              (invariant_init _ _)) as (p & Hs & Hf).
  destruct (compressed_size ["a"; "a"; "b"]%byte 2 p ltac:(lia) Hs Hf)
    as (cs & H).
  exists p, cs. auto.
Defined.

(** X14: the queue's closing flag.  In every reachable state
    [doneReading] is set exactly when the reading thread has left its loop
    and set it; from then on the flag stays set and the queue only loses
    chunks, from its front; and a worker has left only with the queue empty
    and the flag set. *)
Theorem queue_closed (file : list byte) (threadCount : nat) (p : pipeline) :
  steps (init file threadCount) p ->
  (doneReading p = true <-> p_main p = MJoining)
  /\ Forall (fun w => w_pc w = WExited ->
                      workQueue p = [] /\ doneReading p = true) (workers p)
  /\ (forall p', step p p' -> doneReading p = true ->
        doneReading p' = true
        /\ (workQueue p' = workQueue p
            \/ exists c, workQueue p = c :: workQueue p')).
Proof.
  intro Hs.
  destruct (invariant_steps _ _ _ Hs)
    as (_ & _ & _ & Hdone & _ & _ & _ & Hex & _).
  split; [exact Hdone|]. split; [exact Hex|].
  intros p' Hstep Hd.
  destruct Hstep as [in_ idx q done ws c in' idx' E
                    | in_ idx q done ws E
                    | in_ idx q done ws
                    | in_ idx m q done ws1 w ws2 q' done' w' Hw];
    cbn [p_main doneReading workQueue] in *.
  - discriminate (proj1 Hdone Hd).
  - discriminate (proj1 Hdone Hd).
  - discriminate (proj1 Hdone Hd).
  - inversion Hw; subst; split; auto. right. now exists c.
Qed.

Lemma queue_closed_witness :
  exists p,
    steps (init ["a"]%byte 2) p /\ finished p
    /\ (doneReading p = true <-> p_main p = MJoining)
    /\ Forall (fun w => w_pc w = WExited ->
                        workQueue p = [] /\ doneReading p = true)
         (workers p)
    /\ (forall p', step p p' -> doneReading p = true ->
          doneReading p' = true
          /\ (workQueue p' = workQueue p
              \/ exists c, workQueue p = c :: workQueue p')).
Proof.
  destruct (run_to_finish ["a"]%byte 2 (measure (init ["a"]%byte 2))
              (init ["a"]%byte 2) (le_n _) (invariant_init _ _))
    as (p & Hs & Hf).
  exists p. split; [exact Hs|]. split; [exact Hf|].
  exact (queue_closed ["a"]%byte 2 p Hs).
Defined.

(** ** Compressing onto a file that is not empty *)

Lemma init_append_prepend (existing file : list byte) (threadCount : nat) :
  init_append existing file threadCount
  = prepend existing (init file threadCount).
Proof.
  unfold init_append, prepend, init.
  cbn [p_in p_index p_main workQueue doneReading workers].
  rewrite map_repeat. unfold prepend_worker. cbn [w_pc w_out].
  now rewrite app_nil_r.
Qed.

Lemma write_frame_prepend (e out : list byte) (c : Chunk) (o2 : list byte) :
  write_frame (e ++ out) c = Ok o2 <->
  exists o, o2 = e ++ o /\ write_frame out c = Ok o.
Proof.
  unfold write_frame. destruct (RLECompress (data c)) as [z|f]; cbn [bind].
  - unfold write. rewrite <- !app_assoc. split.
    + intro H. injection H as <-. eexists. split; reflexivity.
    + intros (o & -> & H). injection H as <-. reflexivity.
  - split; [discriminate|]. now intros (o & _ & H).
Qed.

Lemma worker_step_prepend (e : list byte) (q q' : list Chunk)
    (done done' : bool) (w w' : worker) :
  worker_step (q, done, w) (q', done', w') ->
  worker_step (q, done, prepend_worker e w) (q', done', prepend_worker e w').
Proof.
  intro H. inversion H; subst; unfold prepend_worker; cbn [w_pc w_out].
  - apply WPop.
  - apply WExit.
  - apply WWrite. apply write_frame_prepend. now eexists.
Qed.

Lemma worker_step_prepend_inv (e : list byte) (q q' : list Chunk)
    (done done' : bool) (w w2 : worker) :
  worker_step (q, done, prepend_worker e w) (q', done', w2) ->
  exists w', w2 = prepend_worker e w'
             /\ worker_step (q, done, w) (q', done', w').
Proof.
  destruct w as [pc out]. unfold prepend_worker. cbn [w_pc w_out].
  intro H. inversion H; subst.
  - exists (mk_worker (WHolding c) out). split; [reflexivity|apply WPop].
  - exists (mk_worker WExited out). split; [reflexivity|apply WExit].
  - match goal with
    | H : write_frame _ _ = Ok _ |- _ =>
        apply write_frame_prepend in H as (o & -> & H')
    end.
    exists (mk_worker WWaiting o). split; [reflexivity|now apply WWrite].
Qed.

Lemma step_prepend (e : list byte) (p q : pipeline) :
  step p q -> step (prepend e p) (prepend e q).
Proof.
  intros [in_ idx qu done ws c in' idx' E
         | in_ idx qu done ws E
         | in_ idx qu done ws
         | in_ idx m qu done ws1 w ws2 q' done' w' Hw];
    unfold prepend;
    cbn [p_in p_index p_main workQueue doneReading workers].
  - now apply SPush.
  - now apply SEndOfInput.
  - apply SDone.
  - rewrite !map_app. cbn [map]. apply SWorker.
    now apply worker_step_prepend.
Qed.

Lemma step_prepend_inv (e : list byte) (p q2 : pipeline) :
  step (prepend e p) q2 -> exists q, q2 = prepend e q /\ step p q.
Proof.
  destruct p as [in_ idx m qu done ws]. unfold prepend.
  cbn [p_in p_index p_main workQueue doneReading workers].
  intro H. inversion H; subst.
  - exists (mk_pipeline in' idx' MReading (qu ++ [c]) done ws).
    split; [reflexivity|now apply SPush].
  - exists (mk_pipeline in_ idx MFinishing qu done ws).
    split; [reflexivity|now apply SEndOfInput].
  - exists (mk_pipeline in_ idx MJoining qu true ws).
    split; [reflexivity|apply SDone].
  - match goal with
    | H : _ ++ _ :: _ = map _ _ |- _ =>
        symmetry in H; apply map_eq_app in H as (l1 & l2 & -> & <- & H');
        apply map_eq_cons in H' as (w0 & l3 & -> & <- & <-)
    end.
    match goal with
    | H : worker_step _ _ |- _ =>
        apply worker_step_prepend_inv in H as (w1 & -> & Hw)
    end.
    exists (mk_pipeline in_ idx m q' done' (l1 ++ w1 :: l3)).
    split; [|now apply SWorker].
    unfold prepend. cbn [p_in p_index p_main workQueue doneReading workers].
    now rewrite map_app.
Qed.

Lemma steps_prepend (e : list byte) (p q : pipeline) :
  steps p q -> steps (prepend e p) (prepend e q).
Proof.
  induction 1 as [p|p q r _ IH Hs]; [apply steps_refl|].
  eapply steps_snoc; [exact IH|now apply step_prepend].
Qed.

Lemma steps_prepend_inv (e : list byte) (p q2 : pipeline) :
  steps (prepend e p) q2 -> exists q, q2 = prepend e q /\ steps p q.
Proof.
  intro H. remember (prepend e p) as p2 eqn:E.
  induction H as [p2|p2 q2 r2 _ IH Hs].
  - exists p. split; [exact E|apply steps_refl].
  - destruct (IH E) as (q & -> & Hq).
    apply step_prepend_inv in Hs as (r & -> & Hr).
    exists r. split; [reflexivity|now apply steps_snoc with q].
Qed.

Lemma finished_prepend (e : list byte) (p : pipeline) :
  finished (prepend e p) <-> finished p.
Proof.
  unfold finished, prepend. cbn [p_main workers].
  rewrite Forall_map. unfold prepend_worker. cbn [w_pc]. reflexivity.
Qed.

(** A finished run with one worker, from an empty output file. *)
Lemma single_worker_final (file : list byte) (p : pipeline) :
  steps (init file 1) p -> finished p ->
  exists out,
    workers p = [mk_worker WExited out]
    /\ out = frames (remaining (open_in file) 0).
Proof.
  intros Hs (Hm & Hw).
  destruct (invariant_steps _ _ _ Hs)
    as (pushed & Hrem & _ & _ & Hlen & _ & _ & Hex & Hone).
  destruct (workers p) as [|[pc out] [|w' ws]] eqn:Ew; try discriminate.
  inversion Hw as [|? ? Hpc _]; subst. cbn [w_pc] in Hpc. subst pc.
  inversion Hex as [|? ? Hq _]; subst. cbn [w_pc] in Hq.
  destruct (Hq eq_refl) as (Eq & _).
  specialize (Hone _ eq_refl). unfold held in Hone.
  cbn [w_pc w_out] in Hone. rewrite Eq in Hone.
  cbn [frames flat_map app] in Hone. rewrite app_nil_r in Hone.
  rewrite Hm, app_nil_r in Hrem.
  exists out. split; [reflexivity|]. now rewrite Hrem.
Qed.

(** X15: the output file is opened in append mode.  Compressing with one
    worker onto a file that holds [existing] returns, and leaves [existing]
    followed by the frames of the input; so compressing [F1] and then [F2]
    onto the same file gives a file that decompresses to [F1] followed by
    [F2]. *)
Theorem compress_appends :
  (forall existing file : list byte,
      (exists p, steps (init_append existing file 1) p /\ finished p)
      /\ (forall p,
            steps (init_append existing file 1) p -> finished p ->
            exists cs out,
              chunkSource file = Ok cs
              /\ write_frames [] cs = Ok out
              /\ workers p = [mk_worker WExited (existing ++ out)]))
  /\ (forall (F1 F2 out1 : list byte) (p1 p2 : pipeline),
         steps (init F1 1) p1 -> finished p1 ->
         workers p1 = [mk_worker WExited out1] ->
         steps (init_append out1 F2 1) p2 -> finished p2 ->
         exists out2,
           workers p2 = [mk_worker WExited out2]
           /\ decompressFile out2 = Ok (F1 ++ F2)).
Proof.
  assert (Hfinal : forall existing file p,
             steps (init_append existing file 1) p -> finished p ->
             workers p
             = [mk_worker WExited
                  (existing ++ frames (remaining (open_in file) 0))]).
  { intros existing file p Hs Hf. rewrite init_append_prepend in Hs.
    apply steps_prepend_inv in Hs as (q & -> & Hq).
    apply finished_prepend in Hf.
    destruct (single_worker_final _ _ Hq Hf) as (out & Ew & ->).
    unfold prepend. cbn [workers]. rewrite Ew. reflexivity. }
  split.
  - intros existing file. split.
    + destruct (run_to_finish file 1 (measure (init file 1)) (init file 1)
                  (le_n _) (invariant_init _ _)) as (p & Hs & Hf).
      exists (prepend existing p). rewrite init_append_prepend. split.
      * now apply steps_prepend.
      * now apply finished_prepend.
    + intros p Hs Hf.
      destruct (chunks_of_file file) as (_ & A & _). cbn zeta in A.
      exists (remaining (open_in file) 0),
             (frames (remaining (open_in file) 0)).
      split; [apply chunkSource_remaining|].
      split; [now apply write_frames_spec|]. now apply Hfinal.
  - intros F1 F2 out1 p1 p2 Hs1 Hf1 Ew1 Hs2 Hf2.
    destruct (single_worker_final _ _ Hs1 Hf1) as (o & Ew & ->).
    rewrite Ew in Ew1. injection Ew1 as <-.
    rewrite (Hfinal _ _ _ Hs2 Hf2). eexists. split; [reflexivity|].
    destruct (chunks_of_file F1) as (D1 & A1 & I1).
    destruct (chunks_of_file F2) as (D2 & A2 & I2).
    cbn zeta in *.
    rewrite <- frames_app, <- (app_nil_r (frames _)).
    rewrite decompressFile_frames.
    + now rewrite flat_map_app, D1, D2.
    + apply Forall_app. now split.
    + apply Forall_app. now split.
    + cbn [length]. lia.
Qed.

Lemma compress_appends_witness :
  exists p cs out,
    steps (init_append ["o"; "l"; "d"]%byte ["n"; "e"; "w"]%byte 1) p
    /\ finished p
    /\ chunkSource ["n"; "e"; "w"]%byte = Ok cs
    /\ write_frames [] cs = Ok out
    /\ workers p = [mk_worker WExited (["o"; "l"; "d"]%byte ++ out)].
Proof.
  destruct (proj1 compress_appends ["o"; "l"; "d"]%byte ["n"; "e"; "w"]%byte)
    as ((p & Hs & Hf) & H).
  destruct (H p Hs Hf) as (cs & out & H1 & H2 & H3).
  exists p, cs, out. auto.
Defined.

(** ** The order of the chunks in a worker's stream *)

Lemma subseq_refl {A : Type} (l : list A) : subseq l l.
Proof.
  induction l; [apply subseq_nil|now apply subseq_take].
Qed.

Lemma subseq_snoc_skip {A : Type} (l l' : list A) (x : A) :
  subseq l l' -> subseq l (l' ++ [x]).
Proof.
  induction 1 as [|y l l' _ IH|y l l' _ IH]; cbn [app].
  - apply subseq_skip, subseq_nil.
  - now apply subseq_skip.
  - now apply subseq_take.
Qed.

Lemma subseq_snoc_take {A : Type} (l l' : list A) (x : A) :
  subseq l l' -> subseq (l ++ [x]) (l' ++ [x]).
Proof.
  induction 1 as [|y l l' _ IH|y l l' _ IH]; cbn [app].
  - apply subseq_take, subseq_nil.
  - now apply subseq_skip.
  - now apply subseq_take.
Qed.

Lemma subseq_nil_l {A : Type} (l : list A) : subseq [] l.
Proof.
  induction l; [apply subseq_nil|now apply subseq_skip].
Qed.

Lemma subseq_app_skip {A : Type} (l l' q : list A) :
  subseq l l' -> subseq l (l' ++ q).
Proof.
  induction 1 as [|y l l' _ IH|y l l' _ IH]; cbn [app].
  - apply subseq_nil_l.
  - now apply subseq_skip.
  - now apply subseq_take.
Qed.

Lemma subseq_Forall {A : Type} (P : A -> Prop) (l l' : list A) :
  subseq l l' -> Forall P l' -> Forall P l.
Proof.
  induction 1 as [|y l l' _ IH|y l l' _ IH]; intro H; auto;
    inversion H; subst; auto.
Qed.

Lemma subseq_map {A B : Type} (f : A -> B) (l l' : list A) :
  subseq l l' -> subseq (map f l) (map f l').
Proof.
  induction 1 as [|y l l' _ IH|y l l' _ IH]; cbn [map].
  - apply subseq_nil.
  - now apply subseq_skip.
  - now apply subseq_take.
Qed.

Lemma subseq_sorted (l l' : list N) :
  subseq l l' -> StronglySorted N.lt l' -> StronglySorted N.lt l.
Proof.
  induction 1 as [|x l l' _ IH|x l l' Hs IH]; intro H; auto.
  - inversion H; subst. auto.
  - inversion H as [|? ? H1 H2]; subst. constructor; auto.
    now apply (subseq_Forall _ _ _ Hs).
Qed.

Lemma counted_sorted (l : list Chunk) :
  forall off,
    (forall k c, nth_error l k = Some c -> index c = (off + N.of_nat k)%N) ->
    StronglySorted N.lt (map index l).
Proof.
  induction l as [|c l IH]; intros off H; cbn [map]; constructor.
  - apply (IH (off + 1)%N). intros k c' Hk.
    rewrite (H (S k) c' Hk). lia.
  - apply Forall_forall. intros i Hi.
    apply in_map_iff in Hi as (c' & <- & Hc').
    apply In_nth_error in Hc' as (k & Hk).
    rewrite (H 0 c eq_refl), (H (S k) c' Hk). lia.
Qed.

Lemma chunk_count_le (file : list byte) :
  length (remaining (open_in file) 0) <= length file.
Proof.
  destruct (remaining_spec (length file) (open_in file) 0%N (le_n _) eq_refl
              eq_refl) as (_ & _ & _ & _ & C2).
  cbn [open_in rest] in C2. pose proof chunk_size_pos as Hpos.
  set (m := length (remaining (open_in file) 0)) in *.
  set (c := N.to_nat CHUNK_SIZE) in *. clearbody m c. nia.
Qed.

Section Ordering.

Variable file : list byte.
Variable threadCount : nat.

Lemma taken_in_order_init : taken_in_order file (init file threadCount).
Proof.
  exists [], [], (repeat [] threadCount).
  cbn [init p_main p_in p_index workers workQueue app].
  repeat split.
  - induction threadCount as [|n IH]; cbn [repeat]; constructor; auto.
  - apply Forall_forall. intros t Ht. apply repeat_spec in Ht. subst t.
    apply subseq_nil.
Qed.

Lemma taken_in_order_step (p p' : pipeline) :
  invariant file threadCount p -> taken_in_order file p -> step p p' ->
  taken_in_order file p'.
Proof.
  intros (_ & _ & _ & _ & _ & _ & Hh & _ & _)
         (pushed & popped & taken & Hrem & Hq & Ht & Hp) Hstep.
  unfold taken_in_order.
  destruct Hstep as [in_ idx q done ws c in' idx' E
                    | in_ idx q done ws E
                    | in_ idx q done ws
                    | in_ idx m q done ws1 w ws2 q' done' w' Hw];
    cbn [p_main p_in p_index doneReading workers workQueue] in *.
  - exists (pushed ++ [c]), popped, taken. repeat split; auto.
    + rewrite Hrem, (remaining_Some _ _ _ _ _ E), <- app_assoc. reflexivity.
    + now rewrite Hq, <- app_assoc.
  - exists pushed, popped, taken. repeat split; auto.
    now rewrite Hrem, (remaining_None _ _ E).
  - exists pushed, popped, taken. repeat split; auto.
  - apply Forall2_middle in Ht as (t1 & tw & t2 & -> & Ht1 & Hw0 & Ht2).
    apply Forall_app in Hh as (_ & Hh).
    apply Forall_cons_iff in Hh as (Hc & _).
    apply Forall_app in Hp as (Hp1 & Hp2).
    apply Forall_cons_iff in Hp2 as (Hpw & Hp2).
    inversion Hw; subst; clear Hw; unfold held in *; cbn [w_pc w_out] in *.
    + exists (popped ++ c :: q'), (popped ++ [c]), (t1 ++ (tw ++ [c]) :: t2).
      repeat split; auto.
      * now rewrite <- app_assoc.
      * apply Forall2_rebuild; auto. cbn [w_pc w_out].
        rewrite frames_nil, app_nil_r in Hw0.
        now rewrite frames_app, Hw0.
      * apply Forall_app. split.
        -- eapply Forall_impl; [|exact Hp1]. intros t.
           apply subseq_snoc_skip.
        -- constructor; [now apply subseq_snoc_take|].
           eapply Forall_impl; [|exact Hp2]. intros t.
           apply subseq_snoc_skip.
    + exists popped, popped, (t1 ++ tw :: t2).
      repeat split; auto.
      * now rewrite app_nil_r in Hrem.
      * now rewrite app_nil_r.
      * apply Forall2_rebuild; auto.
      * apply Forall_app. split; [exact Hp1|now constructor].
    + inversion Hc; subst.
      match goal with
      | H : write_frame _ _ = Ok _ |- _ =>
          rewrite write_frame_spec in H by now apply chunk_ok_vec_ok
      end.
      match goal with H : Ok _ = Ok _ |- _ => injection H as <- end.
      exists (popped ++ q'), popped, (t1 ++ tw :: t2).
      repeat split; auto.
      * apply Forall2_rebuild; auto. cbn [w_pc w_out].
        rewrite frames_nil, app_nil_r. now rewrite <- Hw0, frames_one.
      * apply Forall_app. split; [exact Hp1|now constructor].
Qed.

Lemma taken_in_order_steps (p : pipeline) :
  steps (init file threadCount) p -> taken_in_order file p.
Proof.
  intro H. remember (init file threadCount) as p0 eqn:E.
  induction H as [p|p q r H IH Hs].
  - subst p. apply taken_in_order_init.
  - eapply taken_in_order_step; [|apply IH, E|exact Hs].
    subst p. now apply invariant_steps.
Qed.

End Ordering.

(** X16: whatever the number of workers and the schedule, the stream of
    each worker holds whole frames, of chunks of the input in the order of
    the input: the chunks a worker has written are a subsequence of the
    chunks of the input, with strictly increasing indices.  Frames are out
    of order between workers only, never inside one worker's stream. *)
Theorem worker_stream_in_order (file : list byte) (threadCount : nat)
    (p : pipeline) :
  (size file < SizeT.modulus)%N ->
  steps (init file threadCount) p -> finished p ->
  exists cs taken,
    chunkSource file = Ok cs
    /\ Forall2 (fun w t =>
                  write_frames [] t = Ok (w_out w)
                  /\ subseq t cs
                  /\ StronglySorted N.lt (map index t))
         (workers p) taken.
Proof.
  intros Hsize Hs (Hm & Hw).
  destruct (taken_in_order_steps _ _ _ Hs)
    as (pushed & popped & taken & Hrem & Hq & Ht & Hp).
  rewrite Hm, app_nil_r in Hrem.
  set (cs := remaining (open_in file) 0) in *.
  assert (Hsub : Forall (fun t => subseq t cs) taken).
  { eapply Forall_impl; [|exact Hp]. intros t Hsub.
    cbn beta. rewrite Hrem, Hq. now apply subseq_app_skip. }
  destruct (chunks_of_file file) as (_ & A & _). cbn zeta in A. fold cs in A.
  assert (Hsorted : StronglySorted N.lt (map index cs)).
  { apply (counted_sorted cs 0%N). intros k c Hk.
    destruct (remaining_spec (length file) (open_in file) 0%N (le_n _)
                eq_refl eq_refl) as (_ & _ & K & C1 & _).
    fold cs in K, C1. cbn [open_in rest] in C1.
    destruct (K k c Hk) as (-> & _).
    apply wrap_small.
    assert (k < length cs) by (apply nth_error_Some; congruence).
    pose proof (chunk_count_le file) as Hle. fold cs in Hle.
    unfold size in Hsize. lia. }
  exists cs, taken. split; [apply chunkSource_remaining|].
  eapply Forall2_impl;
    [|exact (Forall2_strengthen _ _ _ _ _ Hw Hsub Ht)].
  cbn beta. intros w t (Hpc & Hst & E).
  unfold held in E. rewrite Hpc, frames_nil, app_nil_r in E.
  split; [|split].
  - rewrite write_frames_spec by exact (subseq_Forall _ _ _ Hst A).
    now rewrite E.
  - exact Hst.
  - exact (subseq_sorted _ _ (subseq_map index _ _ Hst) Hsorted).
Qed.

Lemma worker_stream_in_order_witness :
  exists p cs taken,
    steps (init ["a"; "a"; "b"]%byte 2) p /\ finished p
    /\ chunkSource ["a"; "a"; "b"]%byte = Ok cs
    /\ Forall2 (fun w t =>
                  write_frames [] t = Ok (w_out w)
                  /\ subseq t cs
                  /\ StronglySorted N.lt (map index t))
         (workers p) taken.
Proof.
  destruct (run_to_finish ["a"; "a"; "b"]%byte 2
              (measure (init ["a"; "a"; "b"]%byte 2))
              (init ["a"; "a"; "b"]%byte 2) (le_n _)
              (invariant_init _ _)) as (p & Hs & Hf).
  destruct (worker_stream_in_order ["a"; "a"; "b"]%byte 2 p
              eq_refl Hs Hf) as (cs & taken & H).
  exists p, cs, taken. auto.
Defined.
